(** * A shallow embedding of the sass compiler core: lexer, selector
      resolver and CSS emitter, with the properties checked against it.

    Conventions shared by all modules:
    - a Go [string] is a sequence of bytes: [string] of the Standard Library
      (one [ascii] per byte);
    - a Go [int] or [rune] is a [Z] (no value here comes near the word size);
    - a call that can panic, leave the process or recurse without bound
      returns an [outcome];
    - writes to the log and to standard output are not part of the model. *)

From Stdlib Require Import ZArith List String Ascii Bool Lia.
Import ListNotations.
#[local] Set Warnings "-register-all".
Open Scope string_scope.
Open Scope list_scope.
Open Scope Z_scope.

(** ** Outcomes of a call *)

(** What a Go run-time panic carries. *)
Inductive panic : Type :=
| IndexOutOfRange
| SliceBounds
| DivideByZero
| NilDereference
| TypeAssertion
| IncompatibleLengths (ll lr : Z)   (* panic(fmt.Errorf("Incompatible lengths left:%d right:%d", ll, lr)) *)
| PanicMsg (msg : string).

Inductive outcome (A : Type) : Type :=
| Ret (a : A)              (* the call returns *)
| Panic (p : panic)        (* the call panics *)
| Exit (code : Z)          (* os.Exit, reached through log.Fatal *)
| OutOfFuel.               (* the recursion budget of the model ran out *)

Arguments Ret {A} a.
Arguments Panic {A} p.
Arguments Exit {A} code.
Arguments OutOfFuel {A}.

Definition obind {A B : Type} (m : outcome A) (k : A -> outcome B) : outcome B :=
  match m with
  | Ret a => k a
  | Panic p => Panic p
  | Exit c => Exit c
  | OutOfFuel => OutOfFuel
  end.

(** [s[n:]] for an in-range [n]. *)
Fixpoint dropBytes (n : nat) (s : string) : string :=
  match n, s with
  | O, _ => s
  | S k, EmptyString => EmptyString
  | S k, String _ t => dropBytes k t
  end.

(** ** unicode/utf8 *)
Module utf8.

Definition rune := Z.

Definition RuneError : rune := 0xFFFD.
Definition RuneSelf : Z := 0x80.

Definition byteZ (c : ascii) : Z := Z.of_N (N_of_ascii c).

(** The table [first] of the Go library: per leading byte, the size of the
    sequence in the low three bits and the index of the accepted range of the
    second byte in the high four; 0xF0 is ASCII, 0xF1 an illegal leader. *)
Definition first (b : Z) : Z :=
  if b <? 0x80 then 0xF0
  else if b <? 0xC2 then 0xF1
  else if b <? 0xE0 then 0x02
  else if b =? 0xE0 then 0x13
  else if b <? 0xED then 0x03
  else if b =? 0xED then 0x23
  else if b <? 0xF0 then 0x03
  else if b =? 0xF0 then 0x34
  else if b <? 0xF4 then 0x04
  else if b =? 0xF4 then 0x44
  else 0xF1.

Definition acceptRanges (i : Z) : Z * Z :=
  if i =? 1 then (0xA0, 0xBF)
  else if i =? 2 then (0x80, 0x9F)
  else if i =? 3 then (0x90, 0xBF)
  else if i =? 4 then (0x80, 0x8F)
  else (0x80, 0xBF).

Definition locb : Z := 0x80.
Definition hicb : Z := 0xBF.
Definition maskx : Z := 0x3F.

Definition continuation (b : Z) : bool := (locb <=? b) && (b <=? hicb).

(** [utf8.DecodeRuneInString]: the first rune of [s] and its width in bytes;
    [(RuneError, 0)] on the empty string, [(RuneError, 1)] on an invalid
    encoding. *)
Definition DecodeRuneInString (s : string) : rune * Z :=
  match s with
  | EmptyString => (RuneError, 0)
  | String c0 t0 =>
    let s0 := byteZ c0 in
    let x := first s0 in
    if 0xF0 <=? x then
      (if Z.odd x then RuneError else s0, 1)
    else
      let sz := Z.land x 7 in
      let '(lo, hi) := acceptRanges (Z.shiftr x 4) in
      match t0 with
      | EmptyString => (RuneError, 1)
      | String c1 t1 =>
        let s1 := byteZ c1 in
        if (s1 <? lo) || (hi <? s1) then (RuneError, 1)
        else if sz <=? 2 then
          (Z.lor (Z.shiftl (Z.land s0 0x1F) 6) (Z.land s1 maskx), 2)
        else
          match t1 with
          | EmptyString => (RuneError, 1)
          | String c2 t2 =>
            let s2 := byteZ c2 in
            if negb (continuation s2) then (RuneError, 1)
            else if sz <=? 3 then
              (Z.lor (Z.lor (Z.shiftl (Z.land s0 0x0F) 12)
                            (Z.shiftl (Z.land s1 maskx) 6))
                     (Z.land s2 maskx), 3)
            else
              match t2 with
              | EmptyString => (RuneError, 1)
              | String c3 _ =>
                let s3 := byteZ c3 in
                if negb (continuation s3) then (RuneError, 1)
                else
                  (Z.lor (Z.lor (Z.lor (Z.shiftl (Z.land s0 0x07) 18)
                                       (Z.shiftl (Z.land s1 maskx) 12))
                                (Z.shiftl (Z.land s2 maskx) 6))
                         (Z.land s3 maskx), 4)
              end
          end
      end
  end.

(** [utf8.ValidString]: no decoding step from the start of [s] reports an
    invalid encoding. *)
Fixpoint validFrom (fuel : nat) (s : string) : bool :=
  match s, fuel with
  | EmptyString, _ => true
  | _, O => false
  | String _ _, S k =>
    let '(r, w) := DecodeRuneInString s in
    if (r =? RuneError) && (w =? 1) then false
    else validFrom k (dropBytes (Z.to_nat w) s)
  end.

Definition ValidString (s : string) : bool := validFrom (String.length s) s.

(** [utf8.ValidRune]: inside the range of Unicode and no surrogate half. *)
Definition ValidRune (r : rune) : bool :=
  ((0 <=? r) && (r <? 0xD800)) || ((0xDFFF <? r) && (r <=? 0x10FFFF)).

Definition byteOf (b : Z) : ascii := ascii_of_N (Z.to_N b).

(** [string(r)]: the UTF-8 encoding of [r], that of [RuneError] for a rune
    that is not valid. *)
Definition encode (r : rune) : string :=
  let r := if ValidRune r then r else RuneError in
  if r <? 0x80 then String (byteOf r) EmptyString
  else if r <? 0x800 then
    String (byteOf (Z.lor 0xC0 (Z.shiftr r 6)))
   (String (byteOf (Z.lor 0x80 (Z.land r maskx))) EmptyString)
  else if r <? 0x10000 then
    String (byteOf (Z.lor 0xE0 (Z.shiftr r 12)))
   (String (byteOf (Z.lor 0x80 (Z.land (Z.shiftr r 6) maskx)))
   (String (byteOf (Z.lor 0x80 (Z.land r maskx))) EmptyString))
  else
    String (byteOf (Z.lor 0xF0 (Z.shiftr r 18)))
   (String (byteOf (Z.lor 0x80 (Z.land (Z.shiftr r 12) maskx)))
   (String (byteOf (Z.lor 0x80 (Z.land (Z.shiftr r 6) maskx)))
   (String (byteOf (Z.lor 0x80 (Z.land r maskx))) EmptyString))).

End utf8.

(** ** Package strings, and slicing of strings *)
Module strings.

Definition len (s : string) : Z := Z.of_nat (String.length s).

Definition drop : nat -> string -> string := dropBytes.

(** [s[lo:hi]]; Go panics unless [0 <= lo <= hi <= len(s)]. *)
Definition slice (s : string) (lo hi : Z) : outcome string :=
  if (0 <=? lo) && (lo <=? hi) && (hi <=? len s)
  then Ret (substring (Z.to_nat lo) (Z.to_nat (hi - lo)) s)
  else Panic SliceBounds.

Definition HasPrefix (s pre : string) : bool := prefix pre s.

(** [strings.Contains(s, substr)]. *)
Fixpoint Contains (s substr : string) : bool :=
  prefix substr s ||
  match s with
  | EmptyString => false
  | String _ t => Contains t substr
  end.

(** The pieces of [s] cut at the UTF-8 sequence boundaries ([explode] of the
    Go library): what [Split] returns for the empty separator. *)
Fixpoint explode (fuel : nat) (s : string) : list string :=
  match fuel, s with
  | _, EmptyString => []
  | O, _ => [s]
  | S k, String c t =>
    let w := Z.to_nat (snd (utf8.DecodeRuneInString s)) in
    substring 0 w s :: explode k (drop w s)
  end.

(** The scan behind [Split] for a non-empty separator: [skip] bytes of a
    separator just matched are still to be passed over, [cur] is the piece
    being collected. Matches are taken left to right and do not overlap. *)
Fixpoint splitFrom (sep : string) (skip : nat) (cur s : string) : list string :=
  match s with
  | EmptyString => [cur]
  | String c t =>
    match skip with
    | S k => splitFrom sep k cur t
    | O =>
      if prefix sep s
      then cur :: splitFrom sep (String.length sep - 1) EmptyString t
      else splitFrom sep O (cur ++ String c EmptyString) t
    end
  end.

(** [strings.Split(s, sep)]. *)
Definition Split (s sep : string) : list string :=
  match sep with
  | EmptyString => explode (String.length s) s
  | _ => splitFrom sep O EmptyString s
  end.

(** [strings.Join(elems, sep)]. *)
Definition Join (elems : list string) (sep : string) : string :=
  String.concat sep elems.

(** The scan behind [Replace] with a non-empty [old] and no limit. *)
Fixpoint replaceFrom (old new : string) (skip : nat) (s : string) : string :=
  match s with
  | EmptyString => EmptyString
  | String c t =>
    match skip with
    | S k => replaceFrom old new k t
    | O =>
      if prefix old s
      then new ++ replaceFrom old new (String.length old - 1) t
      else String c (replaceFrom old new O t)
    end
  end.

(** [strings.Replace(s, old, new, -1)]: every non-overlapping occurrence of
    [old] replaced; an empty [old] matches before every UTF-8 sequence and at
    the end. *)
Definition ReplaceAll (s old new : string) : string :=
  match old with
  | EmptyString =>
    fold_right (fun piece acc => (new ++ piece ++ acc)%string) new (explode (String.length s) s)
  | _ => replaceFrom old new O s
  end.

(** The [range] loop of [IndexRune] in search of [RuneError]: whether some
    decoding step from the start of [s] gives the error rune, for an invalid
    byte or for an encoded U+FFFD. *)
Fixpoint hasRuneError (fuel : nat) (s : string) : bool :=
  match s, fuel with
  | EmptyString, _ => false
  | _, O => false
  | String _ _, S k =>
    let '(r, w) := utf8.DecodeRuneInString s in
    (r =? utf8.RuneError) || hasRuneError k (drop (Z.to_nat w) s)
  end.

(** [strings.IndexRune(s, r) >= 0], which is [strings.ContainsRune(s, r)]: a
    rune of ASCII is searched as a byte, [RuneError] through the decoder, a
    rune that is not valid is never found, and any other rune is searched by
    its encoding. *)
Definition HasRune (s : string) (r : utf8.rune) : bool :=
  if (0 <=? r) && (r <? utf8.RuneSelf)
  then existsb (fun c => utf8.byteZ c =? r) (list_ascii_of_string s)
  else if r =? utf8.RuneError then hasRuneError (String.length s) s
  else if negb (utf8.ValidRune r) then false
  else Contains s (utf8.encode r).

End strings.

(** ** Package math *)
Module math.

(** [math.Remainder(float64(x), float64(y))] for integers: the IEEE 754
    remainder [x - n*y] with [n] the integer nearest to [x/y], ties to the
    even one. The operation is exact, so on integers of magnitude below
    [2^53] (every length of a slice is) the float64 result is this integer.
    [None] is NaN ([y = 0]). *)
Definition Remainder (x y : Z) : option Z :=
  if y =? 0 then None
  else
    let m := Z.abs y in
    let q := x / m in
    let r := x mod m in
    if 2 * r <? m then Some r
    else if m <? 2 * r then Some (r - m)
    else if Z.even q then Some r else Some (r - m).

(** The test [math.Remainder(x, y) > 0]; a comparison with NaN is false. *)
Definition Remainder_pos (x y : Z) : bool :=
  match Remainder x y with
  | Some r => 0 <? r
  | None => false
  end.

End math.

(** ** The selector resolver (package ast): cartesian injection and
       comma-merge *)
Module ast.

Definition amper : string := "&".

(** The body of the inner loop of [ghettoResolvedParentInject]: the string
    appended to [ret] for the parent alternative [part] and the child
    fragment [node]. *)
Definition injectOne (delim part node : string) : string :=
  if strings.Contains node amper
  then strings.ReplaceAll node "&" part
  else (part ++ delim ++ node)%string.

(** [ghettoResolvedParentInject(delim, pval, nodes...)]: the two nested
    [range] loops append to [ret], parents outermost. *)
Definition ghettoResolvedParentInject (delim pval : string) (nodes : list string) : string :=
  let gdelim := ", " in
  if strings.len pval =? 0 then strings.Join nodes gdelim
  else
    let sdelim := ", " in
    let parts := strings.Split pval sdelim in
    let ret :=
      fold_left
        (fun ret part =>
           fold_left (fun ret node => ret ++ [injectOne delim part node]) nodes ret)
        parts [] in
    strings.Join ret gdelim.

(** The loop of [mergeLits]: [i] is the index of the head of [rest] in
    [lefts]; [ss] is the slice built so far. *)
Fixpoint mergeLoop (rights : list string) (modulus i : Z) (rest ss : list string)
  : outcome (list string) :=
  match rest with
  | [] => Ret ss
  | l :: rest' =>
    let ss := ss ++ [l] in
    if modulus =? 0 then Panic DivideByZero            (* (i+1)%mod *)
    else if Z.rem (i + 1) modulus =? 0 then
      match nth_error rights (Z.to_nat (Z.quot i modulus)) with
      | Some r => mergeLoop rights modulus (i + 1) rest' (ss ++ [r])
      | None => Panic IndexOutOfRange                  (* rights[i/mod] *)
      end
    else mergeLoop rights modulus (i + 1) rest' ss
  end.

(** The reordering of [mergeLits] on the two split lists. *)
Definition mergeSlices (lefts rights : list string) : outcome (list string) :=
  let ll := Z.of_nat (List.length lefts) in
  let lr := Z.of_nat (List.length rights) in
  if math.Remainder_pos ll lr then Panic (IncompatibleLengths ll lr)
  else if lr =? 0 then Panic DivideByZero              (* mod := ll / lr *)
  else mergeLoop rights (Z.quot ll lr) 0 lefts [].

(** [mergeLits(delim, left, right)]. *)
Definition mergeLits (delim left right : string) : outcome string :=
  let lefts := strings.Split left delim in
  let rights := strings.Split right delim in
  obind (mergeSlices lefts rights) (fun ss => Ret (strings.Join ss delim)).

(** The source order of two alternative lists of one length: left and right
    alternatives in turn. *)
Fixpoint interleave (lefts rights : list string) : list string :=
  match lefts, rights with
  | l :: lefts', r :: rights' => l :: r :: interleave lefts' rights'
  | _, _ => []
  end.

(** *** The injection in the words of the spec, to compare with the loops *)

Definition isAmp (c : ascii) : bool := Ascii.eqb c "&".

Definition mentionsAmp (s : string) : bool :=
  existsb isAmp (list_ascii_of_string s).

(** Every [&] of [s] replaced by [parent]. *)
Fixpoint substAmp (parent s : string) : string :=
  match s with
  | EmptyString => EmptyString
  | String c t =>
    if isAmp c then (parent ++ substAmp parent t)%string
    else String c (substAmp parent t)
  end.

(** One pairing: substitution when the fragment mentions [&], implicit
    descendant joining otherwise. *)
Definition pairing (delim parent node : string) : string :=
  if mentionsAmp node then substAmp parent node
  else (parent ++ delim ++ node)%string.

(** Every pairing, parent-major and child-minor. *)
Definition cartesian (delim : string) (parts nodes : list string) : list string :=
  flat_map (fun part => map (pairing delim part) nodes) parts.

End ast.

(** ** Package unicode *)
Module unicode.

(** [unicode.IsSpace]: the Latin-1 switch of the library followed by the rest
    of the White_Space property. *)
Definition IsSpace (r : utf8.rune) : bool :=
  if (0 <=? r) && (r <=? 0xFF) then
    ((0x09 <=? r) && (r <=? 0x0D)) || (r =? 0x20) || (r =? 0x85) || (r =? 0xA0)
  else
    (r =? 0x1680) || ((0x2000 <=? r) && (r <=? 0x200A)) ||
    (r =? 0x2028) || (r =? 0x2029) || (r =? 0x202F) || (r =? 0x205F) || (r =? 0x3000).

(** The range tables of the library that the lexer consults, and the keyword
    table of package token; they are not part of this repository's sources
    and stay parameters of the lexer. *)
Class Tables : Type := {
  IsNumber : utf8.rune -> bool;     (* unicode.IsNumber *)
  IsLetter : utf8.rune -> bool;     (* unicode.IsLetter *)
  IsGraphic : utf8.rune -> bool;    (* unicode.IsGraphic *)
  LookupIsCmd : string -> bool      (* token.Lookup(s) > 0 *)
}.

(** Tables that agree with the library on ASCII and hold nothing beyond it;
    no keyword is registered. *)
Definition asciiTables : Tables := {|
  IsNumber := fun r => (0x30 <=? r) && (r <=? 0x39);
  IsLetter := fun r => ((0x41 <=? r) && (r <=? 0x5A)) || ((0x61 <=? r) && (r <=? 0x7A));
  IsGraphic := fun r => (0x20 <=? r) && (r <=? 0x7E);
  LookupIsCmd := fun _ => false
|}.

End unicode.

(** ** The lexer (package lexer) *)
Module lexer.
Import utf8.

Definition EOF : rune := 0x04.

Definition IsEOF (c : rune) (n : Z) : bool := n =? 0.

Definition IsInvalid (c : rune) (n : Z) : bool := (c =? RuneError) && (n =? 1).

(** The item types of package token that the lexer emits ([IF'] is its
    [IF], a reserved word here). *)
Inductive ItemType : Type :=
| ItemError | ItemEOF | TEXT | CMT | MULT | PLUS | MINUS
| IMPORT | INCLUDE | EACH | FUNC | MIXIN | IF' | ELSE
| INTP | LPAREN | RPAREN | LBRACKET | RBRACKET | COLON | SEMIC
| VAR | SUB | CMD | CMDVAR | FILE.

Record Item : Type := mkItem { Typ : ItemType; Pos : Z; Value : string }.

(** [Item.String]. *)
Definition Item_String (i : Item) : string :=
  match Typ i with
  | ItemError => Value i
  | ItemEOF => "EOF"
  | _ => Value i
  end.

(** The fields of [Lexer] that a state function can reach. [items] is the
    list behind [*list.List], front first. *)
Record LexerData : Type := mkData {
  input : string;
  start : Z;
  pos : Z;
  width : Z;
  last : rune;
  items : list Item
}.

(** [StateFn]: a function from the lexer to the next state, [None] being the
    nil state. The natural number bounds the depth of calls and the number of
    loop iterations of the run. *)
Inductive StateFn : Type :=
| mkStateFn (run : nat -> LexerData -> outcome (option StateFn * LexerData)).

Record Lexer : Type := mkLexer { data : LexerData; state : option StateFn }.

(** [New(state, input)]; nil for a nil state. *)
Definition New (st : option StateFn) (inp : string) : option Lexer :=
  match st with
  | None => None
  | Some f => Some (mkLexer (mkData inp 0 0 0 0 []) (Some f))
  end.

(** *** The monad of methods on [*Lexer] *)
Definition M (A : Type) : Type := LexerData -> outcome (A * LexerData).

Definition ret {A : Type} (a : A) : M A := fun l => Ret (a, l).

Definition bind {A B : Type} (m : M A) (k : A -> M B) : M B :=
  fun l =>
    match m l with
    | Ret (a, l') => k a l'
    | Panic p => Panic p
    | Exit c => Exit c
    | OutOfFuel => OutOfFuel
    end.

Definition gets {A : Type} (f : LexerData -> A) : M A := fun l => Ret (f l, l).
Definition modify (f : LexerData -> LexerData) : M unit := fun l => Ret (tt, f l).
Definition lift {A : Type} (o : outcome A) : M A := fun l => obind o (fun a => Ret (a, l)).
Definition spent {A : Type} : M A := fun _ => OutOfFuel.

Declare Scope lexer_scope.
Delimit Scope lexer_scope with lexer.
Notation "x <- m ;; k" := (bind m (fun x => k))
  (at level 61, m at next level, right associativity) : lexer_scope.
Notation "' p <- m ;; k" := (bind m (fun x => match x with p => k end))
  (at level 61, p pattern, m at next level, right associativity) : lexer_scope.
Notation "m ;; k" := (bind m (fun _ => k))
  (at level 61, right associativity) : lexer_scope.
Open Scope lexer_scope.

Definition set_start (v : Z) (l : LexerData) : LexerData :=
  mkData (input l) v (pos l) (width l) (last l) (items l).
Definition set_pos (v : Z) (l : LexerData) : LexerData :=
  mkData (input l) (start l) v (width l) (last l) (items l).
Definition set_width (v : Z) (l : LexerData) : LexerData :=
  mkData (input l) (start l) (pos l) v (last l) (items l).
Definition set_last (v : rune) (l : LexerData) : LexerData :=
  mkData (input l) (start l) (pos l) (width l) v (items l).
Definition set_items (v : list Item) (l : LexerData) : LexerData :=
  mkData (input l) (start l) (pos l) (width l) (last l) v.

(** *** The primitives *)

Definition enqueue (i : Item) : M unit :=
  modify (fun l => set_items (items l ++ [i]) l).

Definition dequeue : M (option Item) :=
  fun l =>
    match items l with
    | [] => Ret (None, l)
    | head :: rest => Ret (Some head, set_items rest l)
    end.

(** [Current]: [l.input[l.start:l.pos]]. *)
Definition Current : M string :=
  fun l => obind (strings.slice (input l) (start l) (pos l)) (fun s => Ret (s, l)).

(** [Advance]. The slice [l.input[l.pos:]] panics on a negative [pos]. *)
Definition Advance : M (rune * Z) :=
  fun l =>
    if strings.len (input l) <=? pos l then
      Ret ((EOF, 0), set_width 0 l)
    else if pos l <? 0 then Panic SliceBounds
    else
      let '(r, w) := DecodeRuneInString (strings.drop (Z.to_nat (pos l)) (input l)) in
      let l1 := set_width w (set_last r l) in
      if (r =? RuneError) && (w =? 1) then Ret ((r, w), l1)
      else Ret ((r, w), set_pos (pos l1 + w) l1).

Definition Backup : M unit :=
  modify (fun l => set_pos (pos l - width l) l).

Definition Peek : M (rune * Z) :=
  cn <- Advance ;; Backup ;; ret cn.

Definition Ignore : M unit :=
  modify (fun l => set_start (pos l) l).

Definition Accept (valid : string) : M bool :=
  '(r, _) <- Advance ;;
  let ok := strings.HasRune valid r in
  if ok then ret true else Backup ;; ret false.

Definition AcceptFunc (fn : rune -> bool) : M bool :=
  '(r, n) <- Advance ;;
  if IsEOF r n then ret false
  else if IsInvalid r n then ret false
  else if fn r then ret true
  else Backup ;; ret false.

(** [AcceptRange]; the range table is given by its membership test. *)
Definition AcceptRange (tab : rune -> bool) : M bool :=
  '(r, _) <- Advance ;;
  if tab r then ret true else Backup ;; ret false.

Fixpoint AcceptRun (fuel : nat) (valid : string) : M Z :=
  match fuel with
  | O => spent
  | S k =>
    ok <- Accept valid ;;
    if ok then n <- AcceptRun k valid ;; ret (n + 1) else ret 0
  end.

Fixpoint AcceptRunFunc (fuel : nat) (fn : rune -> bool) : M Z :=
  match fuel with
  | O => spent
  | S k =>
    ok <- AcceptFunc fn ;;
    if ok then n <- AcceptRunFunc k fn ;; ret (n + 1) else ret 0
  end.

Fixpoint AcceptRunRange (fuel : nat) (tab : rune -> bool) : M Z :=
  match fuel with
  | O => spent
  | S k =>
    ok <- AcceptRange tab ;;
    if ok then n <- AcceptRunRange k tab ;; ret (n + 1) else ret 0
  end.

Definition AcceptString (s : string) : M bool :=
  fun l =>
    if strings.len (input l) - pos l <? strings.len s then Ret (false, l)
    else
      obind (strings.slice (input l) (pos l) (pos l + strings.len s)) (fun sub =>
        if strings.HasPrefix sub s
        then Ret (true, set_pos (pos l + strings.len s) l)
        else Ret (false, l)).

(** [Errorf], the message already formatted. *)
Definition Errorf (msg : string) : M (option StateFn) :=
  st <- gets start ;;
  enqueue (mkItem ItemError st msg) ;;
  ret None.

Definition Emit (t : ItemType) : M unit :=
  st <- gets start ;;
  cur <- Current ;;
  enqueue (mkItem t st cur) ;;
  modify (fun l => set_start (pos l) l).

(** [Next]: the queue is served first; a nil state yields the synthetic
    end-of-stream item; otherwise the state function runs once more. *)
Fixpoint Next (fuel : nat) (l : Lexer) : outcome (Item * Lexer) :=
  match fuel with
  | O => OutOfFuel
  | S k =>
    match dequeue (data l) with
    | Ret (Some head, d) => Ret (head, mkLexer d (state l))
    | Ret (None, d) =>
      match state l with
      | None => Ret (mkItem ItemEOF (start d) "", mkLexer d None)
      | Some (mkStateFn run) =>
        match run k d with
        | Ret (st, d') => Next k (mkLexer d' st)
        | Panic p => Panic p
        | Exit c => Exit c
        | OutOfFuel => OutOfFuel
        end
      end
    | Panic p => Panic p
    | Exit c => Exit c
    | OutOfFuel => OutOfFuel
    end
  end.

(** The items that [n] calls of [Next] return, oldest first, and the lexer
    they leave. *)
Fixpoint pull (fuel n : nat) (l : Lexer) : outcome (list Item * Lexer) :=
  match n with
  | O => Ret ([], l)
  | S m =>
    obind (Next fuel l) (fun '(i, l1) =>
    obind (pull fuel m l1) (fun '(rest, l2) => Ret (i :: rest, l2)))
  end.

Definition Symbols : string := "/\.*-_".

Definition IsSymbol (r : rune) : bool := strings.HasRune "(),;{}#:" r.

Definition IsSpace (r : rune) : bool := unicode.IsSpace r.

Definition IsPrintable (r : rune) : bool := true.

Definition chr (c : ascii) : rune := byteZ c.

Definition cmds : list string :=
  [ "sprite-width"; "sprite-height"; "sprite-file";
    "sprite-height"; "sprite-path"; "sprite-position";
    "sprite-width"; "sprite-url"; "sprite-dimensions";
    "sprite-map-name"; "sprite-names";
    "image-url"; "inline-image";
    "image-width"; "image-height" ].

(** The [range cmds] loop of [Text]: the first command that [AcceptString]
    takes ends it. *)
Fixpoint acceptFirst (cs : list string) : M bool :=
  match cs with
  | [] => ret false
  | cmd :: rest =>
    ok <- AcceptString cmd ;;
    if ok then ret true else acceptFirst rest
  end.

(** The loop of [Comment] over a block comment; [prev] is its variable
    [last]. *)
Fixpoint blockCommentLoop (fuel : nat) (prev : rune) : M unit :=
  match fuel with
  | O => spent
  | S k =>
    '(r, _) <- Advance ;;
    if (prev =? chr "*") && (r =? chr "/") then ret tt
    else if r =? EOF then ret tt
    else blockCommentLoop k r
  end.

Section States.
Context {T : unicode.Tables}.

Definition IsAllowedRune (r : rune) : bool :=
  unicode.IsNumber r || unicode.IsLetter r || strings.HasRune Symbols r.

(** The loop of [Comment] over a line comment. *)
Fixpoint lineCommentLoop (fuel : nat) : M unit :=
  match fuel with
  | O => spent
  | S k =>
    '(r, _) <- Advance ;;
    if negb (unicode.IsGraphic r) then ret tt else lineCommentLoop k
  end.

(** The state functions. Every call of a state method and every turn of the
    loop of [Action] takes one unit of [fuel]. *)
Fixpoint Action (fuel : nat) : M (option StateFn) :=
  match fuel with
  | O => spent
  | S k =>
    '(r, _) <- Advance ;;
    if r =? EOF then
      st <- gets start ;;
      enqueue (mkItem ItemEOF st "") ;;
      ret None
    else if IsSpace r then
      Ignore ;; Action k
    else if IsSymbol r then
      Backup ;;
      cur <- Current ;;
      (if 0 <? strings.len cur then Emit TEXT else ret tt) ;;
      Paren k
    else if r =? chr "/" then
      ok <- Accept "/*" ;;
      if ok then Comment k
      else Backup ;; Math k                 (* fallthrough *)
    else if strings.HasRune "*-+/" r then
      Backup ;; Math k
    else if r =? chr "@" then
      Backup ;; Directive k
    else if (r =? chr "034") || (r =? chr "'") then
      File k
    else if r =? chr "$" then
      Var k
    else if IsAllowedRune r then
      Backup ;; Text k
    else
      Action k
  end

with Math (fuel : nat) : M (option StateFn) :=
  match fuel with
  | O => spent
  | S k =>
    (ok <- Accept "*" ;;
     if ok then Emit MULT else
     ok <- Accept "+" ;;
     if ok then Emit PLUS else
     ok <- Accept "-" ;;
     if ok then Emit MINUS else
     ok <- Accept "/" ;;
     if ok then Emit MULT else ret tt) ;;
    Action k
  end

with Directive (fuel : nat) : M (option StateFn) :=
  match fuel with
  | O => spent
  | S k =>
    ok <- AcceptString "@import" ;;
    if ok then Emit IMPORT ;; Action k else
    ok <- AcceptString "@include" ;;
    if ok then Emit INCLUDE ;; Action k else
    ok <- AcceptString "@each" ;;
    if ok then Emit EACH ;; Action k else
    ok <- AcceptString "@function" ;;
    if ok then Emit FUNC ;; Action k else
    ok <- AcceptString "@mixin" ;;
    if ok then Emit MIXIN ;; Action k else
    ok <- AcceptString "@if" ;;
    if ok then Emit IF' ;; Action k else
    ok <- AcceptString "@else" ;;
    if ok then Emit ELSE ;; Action k else
    Accept "@" ;; Text k
  end

with Paren (fuel : nat) : M (option StateFn) :=
  match fuel with
  | O => spent
  | S k =>
    ok <- AcceptString "#{" ;;
    if ok then Emit INTP ;; Action k else
    ok <- Accept "(" ;;
    if ok then
      back <- gets (fun l => List.last (map Some (items l)) None) ;;
      Emit LPAREN ;;
      ok <- Accept "$" ;;
      if ok then
        AcceptRunFunc k IsAllowedRune ;;
        Emit SUB ;;
        Accept ", " ;;
        File k
      else
        match back with
        | None => lift (Panic NilDereference)          (* last.Value *)
        | Some it =>
          if (Item_String it =? "image-height")%string
             || (Item_String it =? "image-width")%string
          then File k
          else Action k
        end
    else
    ok <- Accept ")" ;;
    if ok then Emit RPAREN ;; Action k else
    ok <- Accept "{" ;;
    if ok then Emit LBRACKET ;; Action k else
    ok <- Accept "}" ;;
    if ok then Emit RBRACKET ;; Action k else
    ok <- Accept ":" ;;
    if ok then Emit COLON ;; Action k else
    ok <- Accept ";" ;;
    if ok then Emit SEMIC ;; Action k else
    Advance ;; Action k
  end

with Comment (fuel : nat) : M (option StateFn) :=
  match fuel with
  | O => spent
  | S k =>
    cur <- Current ;;
    if (cur =? "/*")%string then
      blockCommentLoop k 0 ;; Emit CMT ;; Action k
    else if (cur =? "//")%string then
      lineCommentLoop k ;; Emit CMT ;; Action k
    else Action k
  end

with Var (fuel : nat) : M (option StateFn) :=
  match fuel with
  | O => spent
  | S k =>
    Accept "$" ;;
    AcceptRunFunc k IsAllowedRune ;;
    '(r, _) <- Peek ;;
    (if r =? chr ":" then Emit VAR else Emit SUB) ;;
    Action k
  end

with Text (fuel : nat) : M (option StateFn) :=
  match fuel with
  | O => spent
  | S k =>
    cur <- Current ;;
    (if (cur =? ":")%string then Ignore else ret tt) ;;
    ok <- AcceptString "sprite-map" ;;
    if ok then Emit CMDVAR ;; Action k else
    ok <- acceptFirst cmds ;;
    if ok then Emit CMD ;; Action k else
    ok <- AcceptString "sprite" ;;
    if ok then Emit CMD ;; Action k else
    ok <- Accept "-" ;;
    if ok then Ignore ;; Text k else
    AcceptRunFunc k IsAllowedRune ;;
    Emit TEXT ;;
    Action k
  end

with File (fuel : nat) : M (option StateFn) :=
  match fuel with
  | O => spent
  | S k =>
    AcceptFunc IsSpace ;;
    Ignore ;;
    AcceptRunFunc k IsAllowedRune ;;
    cur <- Current ;;
    (if 0 <? strings.len cur then
       if unicode.LookupIsCmd cur then Emit CMD else Emit FILE
     else ret tt) ;;
    Action k
  end.

(** The method [Action] as a function value: a start state for [New]. *)
Definition ActionFn : StateFn := mkStateFn Action.

End States.

(** [n] calls of a method in a row, with their results. *)
Fixpoint times {A : Type} (n : nat) (m : M A) : M (list A) :=
  match n with
  | O => ret []
  | S k => a <- m ;; rest <- times k m ;; ret (a :: rest)
  end.

(** Inputs used below: a space, a slash and U+00E9 (bytes C3 A9), which is
    valid UTF-8; and a lone byte FF, which is not. *)
Definition spaceSlashWide : string :=
  String " " (String "/" (String "195" (String "169" EmptyString))).

Definition loneFF : string := String "255" EmptyString.

(** The lexer data on the input [spaceSlashWide] with the given offsets and
    an empty queue. *)
Definition at_ (start pos width : Z) (last : rune) : LexerData :=
  mkData spaceSlashWide start pos width last [].

Close Scope lexer_scope.

End lexer.

(** ** Package token: the kinds of literals and the operators the compiler
       looks at *)
Module token.

Inductive Token : Type :=
| ILLEGAL | INT | FLOAT | STRING | QSTRING | COLOR | VAR
| ADD | SUB | MUL | QUO | GTR | TIL | NEST | COMMA
| OtherToken (n : Z).

Definition eqb (a b : Token) : bool :=
  match a, b with
  | ILLEGAL, ILLEGAL | INT, INT | FLOAT, FLOAT | STRING, STRING
  | QSTRING, QSTRING | COLOR, COLOR | VAR, VAR
  | ADD, ADD | SUB, SUB | MUL, MUL | QUO, QUO | GTR, GTR | TIL, TIL
  | NEST, NEST | COMMA, COMMA => true
  | OtherToken n, OtherToken m => n =? m
  | _, _ => false
  end.

End token.

(** ** The selector resolver (package ast, continued): the switch over
       selector expressions *)
Module astwalk.
Import token.

(** [*ast.BasicLit] with the fields the resolver writes. *)
Record BasicLit : Type := mkLit { Kind : Token; ValuePos : Z; Value : string }.

(** The selector expressions that [switchExpr] tells apart. *)
Inductive Expr : Type :=
| EBasicLit (lit : BasicLit)
| EUnaryExpr (op : Token) (opPos : Z) (x : Expr)
| EBinaryExpr (op : Token) (opPos : Z) (x y : Expr)
| EOther.

(** [*SelStmt] as the resolver reads it: its field [Resolved], [None] being
    nil. *)
Record SelStmt : Type := mkSelStmt { Resolved : option BasicLit }.

(** What the resolver takes from code that is not among the sources. *)
Class Env : Type := {
  Op_String : Token -> string;                              (* token.Token.String *)
  ExprCopy : option BasicLit -> outcome (option BasicLit);  (* ast.ExprCopy on a literal; None is nil *)
  Pos : Expr -> Z                                           (* Node.Pos *)
}.

(** [ghettoParentInject]. *)
Definition ghettoParentInject (delim : string) (parent : option SelStmt)
  (nodes : list string) : outcome string :=
  match parent with
  | None => Ret (ast.ghettoResolvedParentInject delim "" nodes)
  | Some stmt =>
    match Resolved stmt with
    | Some lit => Ret (ast.ghettoResolvedParentInject delim (Value lit) nodes)
    | None => Panic NilDereference                      (* parent.Resolved.Value *)
    end
  end.

Section Resolver.
Context {E : Env}.

(** [parseBackRef]. *)
Definition parseBackRef (delim : string) (parent : option BasicLit)
  (child : BasicLit) : outcome (option BasicLit) :=
  if (Value child =? "&")%string then ExprCopy parent
  else
    match parent with
    | None => Panic NilDereference                      (* parent.Value *)
    | Some p =>
      let ret := ast.ghettoResolvedParentInject delim (Value p) [Value child] in
      Ret (Some (mkLit STRING (Pos (EBasicLit child)) ret))
    end.

(** The case of a unary expression in [switchExpr]. *)
Definition switchUnary (parent : option SelStmt) (op : Token) (x : Expr)
  : outcome (option BasicLit) :=
  let delim := " " in
  match parent with
  | None => Panic NilDereference                        (* s.parent.Resolved *)
  | Some stmt =>
    match x with
    | EBasicLit lit =>
      parseBackRef (delim ++ Op_String op ++ delim) (Resolved stmt) lit
    | _ => Panic TypeAssertion
    end
  end.

Definition isUnary (e : Expr) : bool :=
  match e with
  | EUnaryExpr _ _ _ => true
  | _ => false
  end.

(** [x.Value] of a literal that may be nil. *)
Definition valueOf (lit : option BasicLit) : outcome string :=
  match lit with
  | Some l => Ret (Value l)
  | None => Panic NilDereference
  end.

(** [joinBinary] over the switch for the operands. *)
Definition joinBinaryWith (switch : Expr -> outcome (option BasicLit))
  (parent : option SelStmt) (bin : Expr) (op : Token) (X Y : Expr)
  : outcome (option BasicLit) :=
  let delim := " " in
  let delim :=
    if token.eqb op COMMA then ("," ++ delim)%string
    else (delim ++ Op_String op ++ delim)%string in
  let unx := isUnary X in
  let uny := isUnary Y in
  obind (switch X) (fun x =>
  obind (switch Y) (fun y =>
    if unx && uny then
      obind (valueOf x) (fun xv =>
      obind (valueOf y) (fun yv =>
        Ret (Some (mkLit STRING (Pos bin)
                     (ast.ghettoResolvedParentInject delim xv [yv])))))
    else if unx then switchUnary parent op Y
    else if token.eqb op COMMA then
      obind (valueOf x) (fun xv =>
      obind (valueOf y) (fun yv =>
      obind (ast.mergeLits delim xv yv) (fun val =>
        Ret (Some (mkLit STRING (Pos bin) val)))))
    else
      obind (valueOf x) (fun xv =>
      obind (valueOf y) (fun yv =>
        Ret (Some (mkLit STRING (Pos bin) (strings.Join [xv; yv] delim))))))).

(** [switchExpr] of a resolver whose parent statement is [parent]. *)
Fixpoint switchExpr (parent : option SelStmt) (expr : Expr)
  : outcome (option BasicLit) :=
  match expr with
  | EBasicLit v =>
    obind (ExprCopy (Some v)) (fun copy =>
      match copy with
      | None => Panic NilDereference                    (* copy.ValuePos = ... *)
      | Some c =>
        obind (ghettoParentInject " " parent [Value v]) (fun val =>
          Ret (Some (mkLit (Kind c) (ValuePos v) val)))
      end)
  | EUnaryExpr op _ x => switchUnary parent op x
  | EBinaryExpr op _ x y =>
    joinBinaryWith (switchExpr parent) parent expr op x y
  | EOther => Panic (PanicMsg "switch expr")
  end.

Definition joinBinary (parent : option SelStmt) (bin : Expr) (op : Token)
  (X Y : Expr) : outcome (option BasicLit) :=
  joinBinaryWith (switchExpr parent) parent bin op X Y.

End Resolver.

(** An environment in which [ExprCopy] returns a literal with the fields of
    its argument. *)
Definition copyEnv : Env := {|
  Op_String := fun t =>
    match t with
    | GTR => ">" | TIL => "~" | ADD => "+" | NEST => "&" | COMMA => ","
    | _ => "?"
    end;
  ExprCopy := fun lit => Ret lit;
  Pos := fun e =>
    match e with
    | EBasicLit lit => ValuePos lit
    | EUnaryExpr _ p _ => p
    | EBinaryExpr _ p _ _ => p
    | EOther => 0
    end
|}.

(** The source text of a selector without commas and unary combinators:
    literals as they are, operators between single spaces. *)
Fixpoint plain (e : Expr) : bool :=
  match e with
  | EBasicLit _ => true
  | EBinaryExpr op _ x y => negb (token.eqb op COMMA) && plain x && plain y
  | _ => false
  end.

Section Render.
Context {E : Env}.

Fixpoint render (e : Expr) : string :=
  match e with
  | EBasicLit lit => Value lit
  | EBinaryExpr op _ x y => render x ++ " " ++ Op_String op ++ " " ++ render y
  | _ => EmptyString
  end.

End Render.

(** The right alternatives put back after every run of [k] left
    alternatives. *)
Fixpoint runs (k : nat) (lefts rights : list string) : list string :=
  match rights with
  | [] => []
  | r :: rights' => firstn k lefts ++ r :: runs k (skipn k lefts) rights'
  end.

End astwalk.


(** ** The code generator and the expression evaluator (package compiler) *)
Module compiler.
Import token.

Definition nl : string := String "010" EmptyString.
Definition dquote : string := String "034" EmptyString.

(** *** The syntax tree, as far as the compiler reads it *)

Record BasicLit : Type := mkLit { Kind : Token; Value : string }.

(** Expressions. [EBasicLit None] is a nil [*ast.BasicLit] held in an
    interface; [Obj] of an identifier is [None] when nil and otherwise holds
    [Obj.Decl]. A declaration reached through [Obj.Decl] is part of the tree:
    chains of bindings are finite here. *)
Inductive Expr : Type :=
| EBasicLit (lit : option BasicLit)
| EIdent (id : Ident)
| EBinaryExpr (op : Token) (x y : Expr)
| ECallExpr (fn : Expr) (args : list Expr)
| EParenExpr (x : Expr)
| EUnaryExpr (op : Token) (x : Expr)
| EValue
with Ident : Type :=
| mkIdent (Name : string) (Obj : option Decl)
with Decl : Type :=
| DExpr (e : Expr)                    (* an *ast.Ident, *ast.BasicLit or other ast.Expr *)
| DValueSpec (values : list Expr)     (* *ast.ValueSpec *)
| DAssignStmt (rhs : list Expr)       (* *ast.AssignStmt *)
| DOther.

Definition Name (i : Ident) : string := let 'mkIdent n _ := i in n.
Definition Obj (i : Ident) : option Decl := let 'mkIdent _ o := i in o.

(** The nodes that [Visit] tells apart; [children] is what the walk descends
    into (for a block, its [List]). *)
Inductive NodeKind : Type :=
| KBlockStmt | KSelDecl | KFile | KGenDecl | KValue | KIdent
| KPropValueSpec (name : string)
| KDeclStmt | KIncludeSpec | KValueSpec
| KRuleSpec (name : string) (values : list Expr)
| KSelStmt (resolved : option BasicLit)
| KCommStmt | KCommentGroup
| KComment (text : string)
| KFuncDecl
| KBasicLit (lit : BasicLit)
| KCallExpr | KEmptyStmt | KAssignStmt
| KUnknown.

Inductive Node : Type :=
| mkNode (kind : NodeKind) (children : list Node).

Inductive error : Type :=
| ErrOperandNil                  (* "operand is nil ..." *)
| ErrCallReturnNil               (* "call return was nil" *)
| ErrParse (msg : string).       (* whatever the parser reports *)

(** Modelled from the spec: the scope chain, whose code is not among the
    sources. One frame per nested block, innermost first; a frame counts the
    rules declared in it; entering a block pushes a frame, leaving pops it. *)
Definition Scope : Type := list nat.

Definition empty : Scope := [].
Definition NewScope (parent : Scope) : Scope := O :: parent.
Definition CloseScope (s : Scope) : Scope := tl s.
Definition RuleLen (s : Scope) : Z := Z.of_nat (hd O s).
Definition RuleAdd (s : Scope) : Scope :=
  match s with
  | [] => []
  | n :: parent => S n :: parent
  end.

Record Context : Type := mkContext {
  buf : string;
  err : option error;
  activeSel : option BasicLit;
  firstRule : bool;
  level : Z;
  scope : Scope
}.

Definition set_buf (v : string) (c : Context) : Context :=
  mkContext v (err c) (activeSel c) (firstRule c) (level c) (scope c).
Definition set_err (v : option error) (c : Context) : Context :=
  mkContext (buf c) v (activeSel c) (firstRule c) (level c) (scope c).
Definition set_activeSel (v : option BasicLit) (c : Context) : Context :=
  mkContext (buf c) (err c) v (firstRule c) (level c) (scope c).
Definition set_firstRule (v : bool) (c : Context) : Context :=
  mkContext (buf c) (err c) (activeSel c) v (level c) (scope c).
Definition set_level (v : Z) (c : Context) : Context :=
  mkContext (buf c) (err c) (activeSel c) (firstRule c) v (scope c).
Definition set_scope (v : Scope) (c : Context) : Context :=
  mkContext (buf c) (err c) (activeSel c) (firstRule c) (level c) v.

(** [fmt.Fprint(ctx.buf, s)], and [Fprintf] of a text without verbs. *)
Definition write (s : string) (c : Context) : Context :=
  set_buf (buf c ++ s) c.

(** What the compiler takes from the rest of the repository and from the Go
    library without their code being among the sources. *)
Class Env : Type := {
  Token_String : Token -> string;                                   (* token.Token.String *)
  BasicLit_Op : BasicLit -> Token -> BasicLit -> option BasicLit;   (* ast.BasicLit.Op; None is nil *)
  Sprint_s : Expr -> string;                                        (* fmt.Sprintf("%s", expr) *)
  Sprintf_verbs : string -> string;                                 (* fmt.Sprintf(format) without operands, of a format that holds a percent sign *)
  ParseFile : string -> Node + error;                               (* parser.ParseFile on a path *)
  visitFunc : Context -> Node -> outcome Context                    (* the printer of mixins *)
}.

(** Whether a text holds a percent sign, the start of a verb when the text is
    used as a format. *)
Fixpoint hasPercent (s : string) : bool :=
  match s with
  | EmptyString => false
  | String c t => Ascii.eqb c "%" || hasPercent t
  end.

(** [Init]. The table [printers] is fixed from here on; [Visit] below
    dispatches on the node kind as the table does. *)
Definition Init : Context :=
  mkContext "" None None false 0 (NewScope empty).

Definition wsCap : Z := 46.

Fixpoint spaces (n : nat) : string :=
  match n with
  | O => EmptyString
  | S k => String " " (spaces k)
  end.

Section Printer.
Context {E : Env}.

(** [fmt.Fprintf(ctx.buf, format)] without operands: a format without a
    percent sign is written as it is, and one with a percent sign as the
    library formats it. *)
Definition Fprintf (format : string) (c : Context) : Context :=
  write (if hasPercent format then Sprintf_verbs format else format) c.

(** [out]: a text that starts with a newline goes out as the format of
    [Fprintf], any other as the operand of the verb [%s] after [2 * level]
    spaces cut from a buffer of 46. *)
Definition out (v : string) (c : Context) : outcome Context :=
  match v with
  | String "010" _ => Ret (Fprintf v c)
  | _ =>
    let n := level c * 2 in
    if (0 <=? n) && (n <=? wsCap)
    then Ret (write (spaces (Z.to_nat n) ++ v) c)
    else Panic SliceBounds
  end.

Definition blockIntro (c : Context) : outcome Context :=
  if negb (firstRule c) then Ret (write nl c)
  else
    let c := set_firstRule false c in
    let c :=
      if 0 <? strings.len (buf c)
      then (if level c =? 0 then write nl c else c)
      else c in
    let sel :=
      match activeSel c with
      | Some lit => Value lit
      | None => "MISSING"
      end in
    out (sel ++ " {" ++ nl) c.

End Printer.

Definition blockOutro (c : Context) : Context :=
  if firstRule c then c
  else write (" }" ++ nl) (set_firstRule true c).

(** [sums[lo:hi]] on a slice of capacity [cap]. *)
Definition sliceList {A : Type} (l : list A) (lo hi cap : Z) : outcome (list A) :=
  if (0 <=? lo) && (lo <=? hi) && (hi <=? cap)
  then Ret (firstn (Z.to_nat (hi - lo)) (skipn (Z.to_nat lo) l))
  else Panic SliceBounds.

Definition isQString (e : Expr) : outcome bool :=
  match e with
  | EBasicLit (Some lit) => Ret (token.eqb (Kind lit) QSTRING)
  | EBasicLit None => Panic NilDereference             (* lit.Kind *)
  | _ => Ret false
  end.

Section Evaluator.
Context {E : Env}.

(** The type assertion of an operand to a basic literal. *)
Definition asBasicLit (e : Expr) : outcome (option BasicLit) :=
  match e with
  | EBasicLit lit => Ret lit
  | _ => Panic TypeAssertion
  end.

(** [Obj.Decl] of the callee of a call expression, the callee asserted to
    be an identifier. *)
Definition callDecl (fn : Expr) : outcome Decl :=
  match fn with
  | EIdent (mkIdent _ (Some d)) => Ret d
  | EIdent (mkIdent _ None) => Panic NilDereference
  | _ => Panic TypeAssertion
  end.

(** The operand of a binary expression after "Convert CallExpr to
    BasicLit". *)
Definition operand (e : Expr) : outcome Expr :=
  match e with
  | ECallExpr fn _ =>
    obind (callDecl fn) (fun d =>
      match d with
      | DExpr e' => Ret e'
      | _ => Panic TypeAssertion
      end)
  | _ => Ret e
  end.

Definition calculateExprs (ctx : Context) (op : Token) (X Y : Expr)
  : outcome (string * option error) :=
  obind (operand X) (fun x =>
  obind (operand Y) (fun y =>
  obind (asBasicLit x) (fun bx =>
  obind (asBasicLit y) (fun by' =>
    match bx, by' with
    | Some bx, Some by' =>
      if token.eqb (Kind bx) COLOR then
        match BasicLit_Op bx op by' with
        | Some z => Ret (Value z, None)
        | None => Ret ((Value bx ++ Value by')%string, None)
        end
      else if token.eqb (Kind bx) INT && negb (token.eqb (Kind by') INT) then
        Ret ((Value bx ++ Token_String op ++ Value by')%string, None)
      else Ret ("", None)
    | _, _ => Ret ("", Some ErrOperandNil)
    end)))).

(** One element of [astmt.Rhs] in [resolveAssign], and below it the loop. *)
Fixpoint resolveRhs (rhs : Expr) : outcome (list (option BasicLit)) :=
  match rhs with
  | EIdent (mkIdent _ None) => Panic NilDereference
  | EIdent (mkIdent _ (Some (DAssignStmt rhs'))) =>
    (fix each (l : list Expr) : outcome (list (option BasicLit)) :=
       match l with
       | [] => Ret []
       | e :: rest =>
         obind (resolveRhs e) (fun a =>
         obind (each rest) (fun b => Ret (a ++ b)))
       end) rhs'
  | EIdent (mkIdent _ (Some _)) => Panic TypeAssertion
  | ECallExpr fn _ =>
    obind (callDecl fn) (fun d =>
      match d with
      | DExpr (EBasicLit lit) => Ret [lit]
      | _ => Panic TypeAssertion
      end)
  | EBasicLit lit => Ret [lit]
  | _ => Exit 1                                         (* log.Fatalf *)
  end.

Fixpoint resolveAssign (rhs : list Expr) : outcome (list (option BasicLit)) :=
  match rhs with
  | [] => Ret []
  | e :: rest =>
    obind (resolveRhs e) (fun a =>
    obind (resolveAssign rest) (fun b => Ret (a ++ b)))
  end.

(** [joinLits]; a nil literal in the slice is a nil dereference. *)
Fixpoint litValues (a : list (option BasicLit)) : outcome (list string) :=
  match a with
  | [] => Ret []
  | Some lit :: rest => obind (litValues rest) (fun vs => Ret (Value lit :: vs))
  | None :: _ => Panic NilDereference
  end.

Definition joinLits (a : list (option BasicLit)) (sep : string) : outcome string :=
  obind (litValues a) (fun vs => Ret (strings.Join vs sep)).

(** The loop of [resolveIdent] over the values of a [*ast.ValueSpec]. *)
Fixpoint specValues (values : list Expr) : outcome (list string) :=
  match values with
  | [] => Ret []
  | EIdent (mkIdent n o) :: rest =>
    obind
      match o with
      | Some (DValueSpec vals) => Ret (map Sprint_s vals)
      | Some _ => Panic TypeAssertion
      | None => Ret [Sprint_s (EIdent (mkIdent n o))]
      end (fun here =>
    obind (specValues rest) (fun more => Ret (here ++ more)))
  | EBasicLit (Some lit) :: rest =>
    obind (specValues rest) (fun more =>
      Ret (if 0 <? strings.len (Value lit) then Value lit :: more else more))
  | EBasicLit None :: _ => Panic NilDereference
  | _ :: _ => Panic TypeAssertion
  end.

Fixpoint resolveIdent (ident : Ident) : outcome string :=
  match ident with
  | mkIdent name None => Ret name
  | mkIdent name (Some d) =>
    match d with
    | DExpr (EIdent vv) => resolveIdent vv
    | DValueSpec values =>
      obind (specValues values) (fun s => Ret (strings.Join s " "))
    | DAssignStmt rhs =>
      obind (resolveAssign rhs) (fun lits => joinLits lits " ")
    | DExpr (EBasicLit _) => Ret ""
    | _ => Ret name
    end
  end.

(** The first loop of [simplifyExprs], over the resolver of single
    expressions: the resolved values, or the first error. *)
Definition resolveAll
  (resolve : Context -> Expr -> outcome ((string * option error) * Context))
  : Context -> list Expr -> list string -> outcome ((list string + error) * Context) :=
  fix loop (ctx : Context) (l : list Expr) (sums : list string) :=
    match l with
    | [] => Ret (inl sums, ctx)
    | e :: rest =>
      obind (resolve ctx e) (fun '((s, er), ctx) =>
        match er with
        | Some er => Ret (inr er, ctx)
        | None => loop ctx rest (sums ++ [s])
        end)
    end.

(** [simplifyExprs] over the resolver of single expressions. *)
Definition simplifyWith
  (resolve : Context -> Expr -> outcome ((string * option error) * Context))
  (ctx : Context) (exprs : list Expr)
  : outcome ((string * option error) * Context) :=
  obind (resolveAll resolve ctx exprs []) (fun '(r, ctx) =>
    match r with
    | inr er => Ret (("", Some er), ctx)
    | inl sums =>
      let n := Z.of_nat (List.length exprs) in
      match exprs with
      | [] => Panic IndexOutOfRange                     (* exprs[0] *)
      | e0 :: _ =>
        obind (isQString e0) (fun q0 =>
        let start := if q0 then 1 else 0 in
        obind (isQString (List.last exprs e0)) (fun qn =>
        let end' := if qn then n - 2 else n in
        if start =? 1 then
          obind (sliceList sums start end' n) (fun sums =>
            Ret (((dquote ++ strings.Join sums " " ++ dquote)%string, None), ctx))
        else Ret ((strings.Join sums " ", None), ctx)))
      end
    end).

Fixpoint resolveExpr (ctx : Context) (expr : Expr)
  : outcome ((string * option error) * Context) :=
  match expr with
  | EValue => Panic (PanicMsg "ast.Value")
  | EBinaryExpr op x y =>
    obind (calculateExprs ctx op x y) (fun r => Ret (r, ctx))
  | ECallExpr fn _ =>
    obind (callDecl fn) (fun d =>
      match d with
      | DExpr (EBasicLit (Some lit)) => Ret ((Value lit, None), ctx)
      | DExpr (EBasicLit None) => Ret (("", Some ErrCallReturnNil), ctx)
      | _ => Panic TypeAssertion
      end)
  | EParenExpr x =>
    obind (simplifyWith resolveExpr ctx [x]) (fun '((s, er), ctx) =>
      Ret ((s, None), set_err er ctx))
  | EIdent v =>
    obind (resolveIdent v) (fun s => Ret ((s, None), ctx))
  | EBasicLit (Some lit) =>
    if token.eqb (Kind lit) VAR then Ret (("", None), ctx)
    else Ret ((Value lit, None), ctx)
  | EBasicLit None => Panic NilDereference
  | EUnaryExpr _ _ => Panic (PanicMsg "unhandled expr")
  end.

Definition simplifyExprs : Context -> list Expr -> outcome ((string * option error) * Context) :=
  simplifyWith resolveExpr.

End Evaluator.

(** *** The walk and the printers *)
Section Generator.
Context {E : Env}.

Definition printSelStmt (resolved : option BasicLit) (c : Context) : Context :=
  set_activeSel resolved c.

Definition printRuleSpec (name : string) (values : list Expr) (c : Context)
  : outcome Context :=
  obind (blockIntro c) (fun c =>
  let c := set_scope (RuleAdd (scope c)) c in
  obind (out ("  " ++ name ++ ": ") c) (fun c =>
  obind (simplifyExprs c values) (fun '((s, er), c) =>
  Ret (write (s ++ ";") (set_err er c))))).

Definition printComment (text : string) (c : Context) : outcome Context :=
  obind (blockIntro c) (fun c => out ("  " ++ text) c).

(** The name and the semicolon are the format of [Fprintf]. *)
Definition printPropValueSpec (name : string) (c : Context) : Context :=
  Fprintf (name ++ ";") c.

(** The walk over a list of nodes, given the walk over one. *)
Definition walkList (walk : Context -> Node -> outcome Context)
  : Context -> list Node -> outcome Context :=
  fix each (c : Context) (l : list Node) : outcome Context :=
    match l with
    | [] => Ret c
    | n :: rest => obind (walk c n) (fun c => each c rest)
    end.

(** [Visit]; the boolean tells the walk whether to descend (a non-nil
    visitor was returned). The printers [printExpr], [printIdent],
    [printDecl], [visitValueSpec] and [visitAssignStmt] write nothing to the
    buffer for the nodes that reach them. *)
Definition Visit (walk : Context -> Node -> outcome Context)
  (c : Context) (node : Node) : outcome (bool * Context) :=
  match err c with
  | Some _ => Ret (false, c)
  | None =>
    let 'mkNode kind children := node in
    match kind with
    | KBlockStmt =>
      let c :=
        if 0 <? RuleLen (scope c) then
          let c := set_level (level c + 1) c in
          if negb (firstRule c) then write (" }" ++ nl) c else c
        else c in
      let c := set_scope (NewScope (scope c)) c in
      let c := set_firstRule true c in
      obind (walkList walk c children) (fun c =>
      let c := if 0 <? level c then set_level (level c - 1) c else c in
      let c := set_scope (CloseScope (scope c)) c in
      let c := blockOutro c in
      Ret (false, set_firstRule true c))
    | KPropValueSpec name => Ret (true, printPropValueSpec name c)
    | KRuleSpec name values =>
      obind (printRuleSpec name values c) (fun c => Ret (true, c))
    | KSelStmt resolved => Ret (true, printSelStmt resolved c)
    | KComment text => obind (printComment text c) (fun c => Ret (true, c))
    | KFuncDecl => obind (visitFunc c node) (fun c => Ret (false, c))
    | _ => Ret (true, c)
    end
  end.

(** Modelled from the spec: the depth-first walk of package ast, whose code
    is not among the sources. It visits the node, descends into the children
    when the visitor says so, and ends with a visit of nil, which [Visit]
    answers without writing. *)
Fixpoint Walk (c : Context) (node : Node) {struct node} : outcome Context :=
  obind (Visit Walk c node) (fun '(descend, c) =>
    if descend
    then let 'mkNode _ children := node in walkList Walk c children
    else Ret c).

Definition endsWithNewline (s : string) : bool :=
  match rev (list_ascii_of_string s) with
  | c :: _ => Ascii.eqb c "010"
  | [] => false
  end.

(** [Context.run] on a path ([src] nil). *)
Definition Context_run (c : Context) (path : string)
  : outcome ((string * option error) * Context) :=
  match ParseFile path with
  | inr e => Ret (("", Some e), c)
  | inl pf =>
    obind (Walk c pf) (fun c =>
    obind (if (0 <? strings.len (buf c)) && negb (endsWithNewline (buf c))
           then out nl c else Ret c) (fun c =>
    Ret ((buf c, None), c)))
  end.

Definition Context_Run := Context_run.

(** The text that [Context.run] returns for a buffer: closed by a newline
    when it is not empty and does not end in one. *)
Definition terminated (text : string) : string :=
  if (0 <? strings.len text) && negb (endsWithNewline text)
  then (text ++ nl)%string else text.

(** [Run]: an error of [Context.Run] goes to [log.Fatal], which writes it to
    the log and leaves the process with status 1. *)
Definition Run (path : string) : outcome (string * option error) :=
  let ctx := Init in
  obind (Context_Run ctx path) (fun '((o, er), _) =>
    match er with
    | Some _ => Exit 1
    | None => Ret (o, er)
    end).

End Generator.

(** The tree of [.a { color: red; }]: a selector statement resolved to [.a]
    whose block declares the one rule. The parser is not among the sources;
    the wrapping nodes are those [Visit] passes without writing. *)
Definition red : Expr := EBasicLit (Some (mkLit STRING "red")).

Definition ruleTree : Node :=
  mkNode KFile
    [ mkNode KSelDecl
        [ mkNode (KSelStmt (Some (mkLit STRING ".a")))
            [ mkNode (KBasicLit (mkLit STRING ".a")) [];
              mkNode KBlockStmt
                [ mkNode KDeclStmt
                    [ mkNode KGenDecl
                        [ mkNode (KRuleSpec "color" [red])
                            [ mkNode KIdent [];
                              mkNode (KBasicLit (mkLit STRING "red")) [] ] ] ] ] ] ] ].

(** An environment around a given parser; nothing else of it is consulted
    by the examples, whose texts hold no percent sign. *)
Definition envOf (parse : string -> Node + error) : Env := {|
  Token_String := fun _ => "+";
  BasicLit_Op := fun _ _ _ => None;
  Sprint_s := fun _ => "";
  Sprintf_verbs := fun format => format;
  ParseFile := parse;
  visitFunc := fun c _ => Ret c
|}.

Definition ruleEnv : Env := envOf (fun _ => inl ruleTree).

Definition failingEnv : Env :=
  envOf (fun _ => inr (ErrParse "input.scss:1:1: expected selector")).

(** A quoted-string marker and a plain literal of a value list. *)
Definition qmark : Expr := EBasicLit (Some (mkLit QSTRING dquote)).
Definition word (s : string) : Expr := EBasicLit (Some (mkLit STRING s)).
Definition int (s : string) : Expr := EBasicLit (Some (mkLit INT s)).

End compiler.

(** ** Auxiliary notions for the properties of the lexer *)
Module lexaux.
Import utf8 lexer.

(** What the decoder reads at the cursor. *)
Definition atCursor (l : LexerData) : rune * Z :=
  DecodeRuneInString (strings.drop (Z.to_nat (pos l)) (input l)).

(** The lexer has its cursor inside the input. *)
Definition inBounds (l : LexerData) : Prop :=
  0 <= pos l <= strings.len (input l).

(** The cursor is before the end of the input and the bytes there are not
    a UTF-8 encoding. *)
Definition invalidAtCursor (l : LexerData) : bool :=
  (pos l <? strings.len (input l))
  && IsInvalid (fst (atCursor l)) (snd (atCursor l)).

(** The fields that no scanning primitive writes. *)
Definition sameText (l l' : LexerData) : Prop :=
  input l' = input l /\ start l' = start l /\ items l' = items l.

(** A state function that reports an error. *)
Definition failWith (msg : string) : StateFn := mkStateFn (fun _ => Errorf msg).

(** The white space of ASCII. *)
Definition asciiSpace (c : ascii) : bool :=
  let b := byteZ c in ((0x09 <=? b) && (b <=? 0x0D)) || (b =? 0x20).

Fixpoint allSpace (s : string) : bool :=
  match s with
  | EmptyString => true
  | String c t => asciiSpace c && allSpace t
  end.

(** The item type that [Math] emits for an arithmetic symbol. *)
Definition mathType (c : ascii) : option ItemType :=
  if Ascii.eqb c "*" then Some MULT
  else if Ascii.eqb c "+" then Some PLUS
  else if Ascii.eqb c "-" then Some MINUS
  else if Ascii.eqb c "/" then Some MULT
  else None.

End lexaux.

(** ** Auxiliary notions for the properties of the compiler *)
Module compaux.
Import token compiler.

(** A literal as an element of a value list, and the text it resolves to:
    a literal of kind VAR resolves to the empty string. *)
Definition litExpr (lit : BasicLit) : Expr := EBasicLit (Some lit).

Definition litText (lit : BasicLit) : string :=
  if token.eqb (Kind lit) VAR then EmptyString else Value lit.

(** The selector text that [blockIntro] prints. *)
Definition selText (c : Context) : string :=
  match activeSel c with
  | Some lit => Value lit
  | None => "MISSING"
  end.

(** The blank line that [blockIntro] puts in front of a block at level 0
    when something was written before, and the indentation of [out]. *)
Definition gap (c : Context) : string :=
  if (0 <? strings.len (buf c)) && (level c =? 0) then nl else EmptyString.

Definition indent (c : Context) : string := spaces (Z.to_nat (level c * 2)).

(** A chain of identifiers, each bound to the next, in front of [last]. *)
Fixpoint chain (names : list string) (last : Ident) : Ident :=
  match names with
  | [] => last
  | n :: rest => mkIdent n (Some (DExpr (EIdent (chain rest last))))
  end.

Section Rules.
Context {E : Env}.

(** The calls that the walk makes for the rules of one block, each rule a
    name with its values, and the [blockOutro] that closes the block. *)
Fixpoint printRules (rules : list (string * list Expr)) (c : Context)
  : outcome Context :=
  match rules with
  | [] => Ret c
  | (name, values) :: rest =>
    obind (printRuleSpec name values c) (printRules rest)
  end.

Definition printBlock (rules : list (string * list Expr)) (c : Context)
  : outcome Context :=
  obind (printRules rules c) (fun c => Ret (blockOutro c)).

End Rules.

(** The line of a rule at an indentation. *)
Definition ruleLine (indent : string) (rule : string * list string) : string :=
  indent ++ "  " ++ fst rule ++ ": " ++ strings.Join (snd rule) " " ++ ";".

(** A rule whose values are plain words. *)
Definition wordRule (rule : string * list string) : string * list Expr :=
  (fst rule, map word (snd rule)).


End compaux.

(** * Properties *)

(** Settles a comparison of integers whose outcome [lia] can decide. *)
Ltac settle b v :=
  replace b with v
    by (symmetry;
        first [ apply Z.eqb_neq | apply Z.eqb_eq | apply Z.leb_le | apply Z.leb_gt
              | apply Z.ltb_lt | apply Z.ltb_ge ];
        lia).

(** * Properties of the selector resolver *)
Section SelectorFacts.
Import strings ast.

Lemma prefix_amp (c : ascii) (t : string) :
  prefix "&" (String c t) = isAmp c.
Proof.
  unfold isAmp. cbn [prefix].
  destruct (ascii_dec "&" c) as [<- | Hne].
  - now destruct t.
  - symmetry. apply Ascii.eqb_neq. congruence.
Qed.

Lemma Contains_amp (s : string) : Contains s "&" = mentionsAmp s.
Proof.
  induction s as [| c t IH]; [reflexivity |].
  unfold mentionsAmp in *. cbn [Contains list_ascii_of_string existsb].
  now rewrite prefix_amp, IH.
Qed.

Lemma ReplaceAll_amp (parent s : string) :
  ReplaceAll s "&" parent = substAmp parent s.
Proof.
  unfold ReplaceAll.
  induction s as [| c t IH]; [reflexivity |].
  cbn [replaceFrom substAmp]. rewrite prefix_amp.
  destruct (isAmp c); cbn [String.length Nat.sub]; now rewrite IH.
Qed.

Lemma injectOne_pairing (delim parent node : string) :
  injectOne delim parent node = pairing delim parent node.
Proof.
  unfold injectOne, pairing, amper.
  now rewrite Contains_amp, ReplaceAll_amp.
Qed.

(** The inner loop appends the pairings of one parent alternative. *)
Lemma inner_loop (delim part : string) (nodes ret : list string) :
  fold_left (fun ret node => ret ++ [injectOne delim part node]) nodes ret
  = ret ++ map (pairing delim part) nodes.
Proof.
  revert ret. induction nodes as [| n ns IH]; intros ret; cbn.
  - now rewrite app_nil_r.
  - rewrite IH, <- app_assoc, injectOne_pairing. reflexivity.
Qed.

Lemma outer_loop (delim : string) (nodes parts ret : list string) :
  fold_left
    (fun ret part =>
       fold_left (fun ret node => ret ++ [injectOne delim part node]) nodes ret)
    parts ret
  = ret ++ flat_map (fun part => map (pairing delim part) nodes) parts.
Proof.
  revert ret. induction parts as [| p ps IH]; intros ret; cbn.
  - now rewrite app_nil_r.
  - rewrite inner_loop, IH, <- app_assoc. reflexivity.
Qed.

(** Position [i * m + j] of the row-major product holds the pairing of row
    [i] with column [j]. *)
Lemma nth_error_product {A B : Type} (f : A -> B -> B) (ps : list A) (ns : list B) :
  forall i j p n,
    nth_error ps i = Some p -> nth_error ns j = Some n ->
    nth_error (flat_map (fun p => map (f p) ns) ps) (i * List.length ns + j)
    = Some (f p n).
Proof.
  induction ps as [| q qs IH]; intros i j p n Hp Hn.
  - destruct i; discriminate.
  - assert (Hj : (j < List.length ns)%nat)
      by (apply nth_error_Some; congruence).
    destruct i as [| i]; cbn [flat_map].
    + cbn in Hp. injection Hp as ->. cbn.
      rewrite nth_error_app1 by now rewrite length_map.
      now rewrite nth_error_map, Hn.
    + cbn in Hp.
      rewrite nth_error_app2 by (rewrite length_map; cbn; lia).
      rewrite length_map.
      replace (S i * List.length ns + j - List.length ns)%nat
        with (i * List.length ns + j)%nat by (cbn; lia).
      now apply IH.
Qed.

Lemma length_product {A B : Type} (f : A -> B -> B) (ps : list A) (ns : list B) :
  List.length (flat_map (fun p => map (f p) ns) ps)
  = (List.length ps * List.length ns)%nat.
Proof.
  induction ps as [| q qs IH]; cbn; [reflexivity |].
  now rewrite length_app, length_map, IH.
Qed.

(** C2. Cartesian injection with a non-empty resolved parent returns the
    join by [", "] of every pairing of a parent alternative with a child
    fragment, parent-major and child-minor: the list has one entry per pair,
    and entry [i * len(nodes) + j] is the pairing of parent alternative [i]
    with fragment [j], in which every [&] of the fragment is replaced by the
    alternative, or, for a fragment without [&], the alternative and the
    delimiter are put in front. In particular parent ["a, b"] with the
    literal [.x] gives ["a .x, b .x"], and with [&:hover] it gives
    ["a:hover, b:hover"]. *)
Theorem ghettoResolvedParentInject_cartesian :
  (forall (delim pval : string) (nodes : list string),
     pval <> EmptyString ->
     let parts := Split pval ", " in
     ghettoResolvedParentInject delim pval nodes
     = Join (cartesian delim parts nodes) ", "
     /\ List.length (cartesian delim parts nodes)
        = (List.length parts * List.length nodes)%nat
     /\ forall i j p n,
          nth_error parts i = Some p -> nth_error nodes j = Some n ->
          nth_error (cartesian delim parts nodes) (i * List.length nodes + j)
          = Some (pairing delim p n))
  /\ ghettoResolvedParentInject " " "a, b" [".x"] = "a .x, b .x"
  /\ ghettoResolvedParentInject " " "a, b" ["&:hover"] = "a:hover, b:hover".
Proof.
  split; [| split; reflexivity].
  intros delim pval nodes Hne parts. split; [| split].
  - unfold ghettoResolvedParentInject, cartesian.
    destruct pval as [| c t]; [congruence |].
    replace (len (String c t) =? 0) with false
      by (symmetry; apply Z.eqb_neq; unfold len; cbn; lia).
    now rewrite outer_loop.
  - apply length_product.
  - intros i j p n. apply nth_error_product.
Qed.

(** The theorem on a parent of two alternatives and two fragments, one of
    them with [&]: four pairings, the parent outermost. *)
Lemma ghettoResolvedParentInject_cartesian_witness :
  ghettoResolvedParentInject " " "a, b" ["&:hover"; ".x"]
  = "a:hover, a .x, b:hover, b .x"
  /\ nth_error (cartesian " " ["a"; "b"] ["&:hover"; ".x"]) (1 * 2 + 0)
     = Some "b:hover".
Proof.
  pose proof (proj1 ghettoResolvedParentInject_cartesian
                " " "a, b" ["&:hover"; ".x"] ltac:(discriminate))
    as (Hjoin & _ & Hnth).
  split.
  - rewrite Hjoin. reflexivity.
  - exact (Hnth 1%nat 0%nat "b" "&:hover" eq_refl eq_refl).
Defined.

(** C1. At the input of the claim the comma-merge does not interleave: the
    loop appends a right alternative only after a full run of [mod = 2] left
    alternatives, so [mergeLits(", ", "1, 3", "2")] is ["1, 3, 2"] and not
    the ["1, 2, 3"] that the claim and the comment above the function
    give. *)
Theorem mergeLits_uneven_split_order :
  mergeLits ", " "1, 3" "2" = Ret "1, 3, 2"
  /\ mergeLits ", " "1, 3" "2" <> Ret "1, 2, 3".
Proof. split; [reflexivity | discriminate]. Qed.

(** The even split of the same comment is restored to source order. *)
Example mergeLits_even_split_order :
  mergeLits ", " "1, 3" "2, 4" = Ret "1, 2, 3, 4".
Proof. reflexivity. Qed.

(** The loop of the merge returns whenever the index stays below
    [modulus * len(rights)]. *)
Lemma mergeLoop_returns (rights : list string) (k : Z) (Hk : 0 < k) :
  forall (rest ss : list string) (i : Z),
    0 <= i ->
    i + Z.of_nat (List.length rest) <= k * Z.of_nat (List.length rights) ->
    exists ss', mergeLoop rights k i rest ss = Ret ss'.
Proof.
  induction rest as [| l rest IH]; intros ss i Hi Hlen; cbn [mergeLoop].
  - eauto.
  - cbn [List.length] in Hlen.
    settle (k =? 0) false.
    destruct (Z.rem (i + 1) k =? 0).
    + destruct (nth_error rights (Z.to_nat (Z.quot i k))) as [r |] eqn:Hnth.
      * apply IH; lia.
      * exfalso. apply nth_error_None in Hnth.
        assert (Z.quot i k < Z.of_nat (List.length rights))
          by (apply Z.quot_lt_upper_bound; lia).
        pose proof (Z.quot_pos i k Hi ltac:(lia)). lia.
    + apply IH; lia.
Qed.

(** The half of C3 that the code keeps: when the number of left alternatives
    is an exact multiple of the number of right alternatives, the merge
    returns. *)
Lemma mergeSlices_exact_ratio (lefts rights : list string) (k : nat) :
  rights <> [] ->
  List.length lefts = (k * List.length rights)%nat ->
  exists ss, mergeSlices lefts rights = Ret ss.
Proof.
  intros Hne Hlen. unfold mergeSlices.
  assert (Hlr : 0 < Z.of_nat (List.length rights))
    by (destruct rights; [congruence | cbn; lia]).
  assert (Hll : Z.of_nat (List.length lefts)
                = Z.of_nat k * Z.of_nat (List.length rights))
    by (rewrite Hlen; lia).
  set (lr := Z.of_nat (List.length rights)) in *.
  set (ll := Z.of_nat (List.length lefts)) in *.
  assert (Hguard : math.Remainder_pos ll lr = false).
  { unfold math.Remainder_pos, math.Remainder.
    settle (lr =? 0) false.
    rewrite Z.abs_eq by lia.
    rewrite Hll, Z.mod_mul by lia. cbn.
    settle (0 <? lr) true.
    reflexivity. }
  rewrite Hguard.
  settle (lr =? 0) false.
  rewrite Hll, Z.quot_mul by lia.
  destruct k as [| k].
  - destruct lefts; [cbn; eauto | discriminate].
  - apply mergeLoop_returns; subst ll lr; lia.
Qed.

(** With as many left as right alternatives the merge is the interleaving:
    this is the order that the cartesian product of a parent with a comma
    group needs. *)
Lemma mergeLoop_interleaves (rest : list string) :
  forall (rrest seen ss : list string),
    List.length rest = List.length rrest ->
    mergeLoop (seen ++ rrest) 1 (Z.of_nat (List.length seen)) rest ss
    = Ret (ss ++ interleave rest rrest).
Proof.
  induction rest as [| l rest IH]; intros rrest seen ss Hlen.
  - destruct rrest; [| discriminate]. cbn. now rewrite app_nil_r.
  - destruct rrest as [| r rrest]; [discriminate |].
    cbn [mergeLoop interleave]. cbn [Z.eqb].
    rewrite Z.rem_1_r, Z.quot_1_r, Nat2Z.id. cbn [Z.eqb].
    rewrite nth_error_app2, Nat.sub_diag by lia. cbn [nth_error].
    replace (Z.of_nat (List.length seen) + 1)
      with (Z.of_nat (List.length (seen ++ [r])))
      by (rewrite length_app; cbn; lia).
    replace (seen ++ r :: rrest) with ((seen ++ [r]) ++ rrest)
      by (now rewrite <- app_assoc).
    rewrite IH by (cbn in Hlen; lia).
    now rewrite <- !app_assoc.
Qed.

Lemma mergeSlices_equal_lengths (lefts rights : list string) :
  lefts <> [] -> List.length lefts = List.length rights ->
  mergeSlices lefts rights = Ret (interleave lefts rights).
Proof.
  intros Hne Hlen. unfold mergeSlices. rewrite <- Hlen.
  assert (Hpos : 0 < Z.of_nat (List.length lefts))
    by (destruct lefts; [congruence | cbn; lia]).
  set (ll := Z.of_nat (List.length lefts)) in *.
  assert (Hguard : math.Remainder_pos ll ll = false).
  { unfold math.Remainder_pos, math.Remainder.
    settle (ll =? 0) false.
    rewrite Z.abs_eq, Z.mod_same by lia. cbn.
    settle (0 <? ll) true.
    reflexivity. }
  rewrite Hguard.
  settle (ll =? 0) false.
  rewrite Z.quot_same by lia.
  exact (mergeLoop_interleaves lefts rights [] [] Hlen).
Qed.

(** C3. The guard of [mergeLits] tests the IEEE remainder, which is negative
    when the ratio rounds up, so lengths that are not in an exact ratio can
    pass it: with seven left and two right alternatives the remainder is
    [-1], no incompatible-lengths failure is reported and a merged list is
    returned. *)
Theorem mergeLits_inexact_ratio_returns :
  math.Remainder 7 2 = Some (-1)
  /\ mergeLits ", " "a, b, c, d, e, f, g" "x, y"
     = Ret "a, b, c, x, d, e, f, y, g".
Proof. split; reflexivity. Qed.

(** With three against two the guard is passed as well and the loop then
    indexes past the right alternatives; with five against two the guard
    fires. *)
Example mergeLits_three_two :
  mergeLits ", " "a, b, c" "x, y" = Panic IndexOutOfRange.
Proof. reflexivity. Qed.

Example mergeLits_five_two :
  mergeLits ", " "a, b, c, d, e" "x, y" = Panic (IncompatibleLengths 5 2).
Proof. reflexivity. Qed.

End SelectorFacts.

(** * Properties of the lexer *)
Section LexerFacts.
Import utf8 lexer.
Context {T : unicode.Tables}.

(** A decode error leaves a lexer on which [Advance] changes nothing. *)
Lemma Advance_stuck (l : LexerData) :
  0 <= pos l < strings.len (input l) ->
  DecodeRuneInString (strings.drop (Z.to_nat (pos l)) (input l)) = (RuneError, 1) ->
  last l = RuneError -> width l = 1 ->
  Advance l = Ret ((RuneError, 1), l).
Proof.
  intros Hpos Hdec Hlast Hwidth. unfold Advance.
  settle (strings.len (input l) <=? pos l) false.
  settle (pos l <? 0) false.
  rewrite Hdec. cbn.
  destruct l as [inp st p w la its]; cbn in *. now subst.
Qed.

Lemma times_stuck {A : Type} (m : M A) (a : A) (l : LexerData) :
  m l = Ret (a, l) -> forall n, times n m l = Ret (repeat a n, l).
Proof.
  intros Hm. induction n as [| n IH]; [reflexivity |].
  cbn [times repeat]. unfold bind at 1. rewrite Hm.
  unfold bind at 1. rewrite IH. reflexivity.
Qed.

(** C7. At or past the end of the input [Advance] returns the end-of-input
    sentinel with width 0 (only [width] is written). On an invalid encoding
    at the cursor it returns [(RuneError, 1)] and leaves the cursor where it
    was; from then on any number of further calls return [(RuneError, 1)]
    again and leave the lexer as the first call left it. *)
Theorem Advance_sentinels (l : LexerData) :
  (strings.len (input l) <= pos l ->
   Advance l = Ret ((EOF, 0), set_width 0 l))
  /\ (0 <= pos l < strings.len (input l) ->
      DecodeRuneInString (strings.drop (Z.to_nat (pos l)) (input l)) = (RuneError, 1) ->
      let l' := set_width 1 (set_last RuneError l) in
      Advance l = Ret ((RuneError, 1), l')
      /\ pos l' = pos l
      /\ forall n, times n Advance l' = Ret (repeat (RuneError, 1) n, l')).
Proof.
  split.
  - intros Hend. unfold Advance.
    now settle (strings.len (input l) <=? pos l) true.
  - intros Hpos Hdec l'. split; [| split].
    + unfold Advance.
      settle (strings.len (input l) <=? pos l) false.
      settle (pos l <? 0) false.
      rewrite Hdec. reflexivity.
    + reflexivity.
    + apply times_stuck, Advance_stuck; destruct l; cbn in *; auto.
Qed.

(** The theorem at the empty input, and at a lone byte FF. *)
Lemma Advance_sentinels_witness :
  Advance (mkData "" 0 0 0 0 []) = Ret ((EOF, 0), mkData "" 0 0 0 0 [])
  /\ Advance (mkData loneFF 0 0 0 0 [])
     = Ret ((RuneError, 1), mkData loneFF 0 0 1 RuneError [])
  /\ times 3 Advance (mkData loneFF 0 0 1 RuneError [])
     = Ret ([(RuneError, 1); (RuneError, 1); (RuneError, 1)],
            mkData loneFF 0 0 1 RuneError []).
Proof.
  pose proof (proj2 (Advance_sentinels (mkData loneFF 0 0 0 0 []))
                ltac:(cbn; lia) eq_refl) as (Hfirst & _ & Hlater).
  split; [| split].
  - apply (proj1 (Advance_sentinels (mkData "" 0 0 0 0 []))). cbn. lia.
  - exact Hfirst.
  - exact (Hlater 3%nat).
Defined.

(** C8. On a lexer whose state is nil and whose queue is empty, every call
    of [Next] returns the synthetic end-of-stream item (at [start], with
    empty text) and leaves the lexer as it was: start, cursor, input and
    queue are the same after any number of calls. *)
Theorem Next_terminal_frame (l : Lexer) (fuel n : nat) :
  state l = None -> items (data l) = [] ->
  Next (S fuel) l = Ret (mkItem ItemEOF (start (data l)) "", l)
  /\ pull (S fuel) n l
     = Ret (repeat (mkItem ItemEOF (start (data l)) "") n, l).
Proof.
  intros Hst Hq.
  assert (Hnext : Next (S fuel) l = Ret (mkItem ItemEOF (start (data l)) "", l)).
  { destruct l as [d st]; cbn in *. subst st.
    unfold dequeue. rewrite Hq. reflexivity. }
  split; [exact Hnext |].
  induction n as [| n IH]; [reflexivity |].
  cbn [pull repeat]. rewrite Hnext. cbn [obind]. rewrite IH. reflexivity.
Qed.

(** The theorem on a terminal lexer stopped at offset 5 of its input. *)
Lemma Next_terminal_frame_witness :
  pull 1 4 (mkLexer (mkData "a { }" 5 5 0 0 []) None)
  = Ret (repeat (mkItem ItemEOF 5 "") 4,
         mkLexer (mkData "a { }" 5 5 0 0 []) None).
Proof.
  exact (proj2 (Next_terminal_frame
                  (mkLexer (mkData "a { }" 5 5 0 0 []) None) 0 4 eq_refl eq_refl)).
Defined.

(** *** The scan of a slash before a wide rune *)

(** [Action] entered with the cursor on the slash (offset 1, the space
    before it ignored) is entered again with the same lexer three calls
    later: the failed [Accept] of the wide rune leaves [width = 2], the
    [Backup] of the fall-through case moves the cursor from offset 2 to
    offset 0, [Math] accepts nothing at the space, and [Action] skips the
    space once more. *)
Lemma Action_cycle (k : nat) :
  Action (S (S (S k))) (at_ 1 1 1 32) = Action k (at_ 1 1 1 32).
Proof. reflexivity. Qed.

Lemma Action_cycle_spent (k : nat) :
  Action k (at_ 1 1 1 32) = OutOfFuel
  /\ Action (S k) (at_ 1 1 1 32) = OutOfFuel
  /\ Action (S (S k)) (at_ 1 1 1 32) = OutOfFuel.
Proof.
  induction k as [| k (H0 & H1 & H2)].
  - repeat split; reflexivity.
  - repeat split; [assumption | assumption |].
    rewrite Action_cycle. exact H0.
Qed.

(** C10. On the input of a space, a slash and U+00E9, which is valid UTF-8,
    the scan does not end: [Action] and [Math] call each other on the same
    lexer for ever, whatever the unicode tables, so no budget of calls lets
    [Next] return an item, and no end-of-stream item is produced. *)
Theorem Next_slash_wide_rune_no_item (fuel : nat) :
  ValidString spaceSlashWide = true
  /\ New (Some ActionFn) spaceSlashWide
     = Some (mkLexer (at_ 0 0 0 0) (Some ActionFn))
  /\ Next fuel (mkLexer (at_ 0 0 0 0) (Some ActionFn)) = OutOfFuel.
Proof.
  split; [reflexivity | split; [reflexivity |]].
  destruct fuel as [| [| k]]; [reflexivity | reflexivity |].
  change (Next (S (S k)) (mkLexer (at_ 0 0 0 0) (Some ActionFn)))
    with (match Action k (at_ 1 1 1 32) with
          | Ret (st, d') => Next (S k) (mkLexer d' st)
          | Panic p => Panic p
          | Exit c => Exit c
          | OutOfFuel => OutOfFuel
          end).
  now rewrite (proj1 (Action_cycle_spent k)).
Qed.

(** On the text of a rule the scan ends: the items come out in source
    order and the end-of-stream item closes them. *)
Example Next_scans_rule :
  pull 40 9 (mkLexer (mkData ".a { color: red; }" 0 0 0 0 [])
                     (Some (@ActionFn unicode.asciiTables)))
  = Ret ([ mkItem TEXT 0 ".a"; mkItem LBRACKET 3 "{"; mkItem TEXT 5 "color";
           mkItem COLON 10 ":"; mkItem TEXT 12 "red"; mkItem SEMIC 15 ";";
           mkItem RBRACKET 17 "}"; mkItem ItemEOF 18 ""; mkItem ItemEOF 18 "" ],
         mkLexer (mkData ".a { color: red; }" 18 18 0 125 []) None).
Proof. reflexivity. Qed.

(** A scan that starts with an opening parenthesis panics: [Paren] reads
    [last.Value] of an empty queue. *)
Example Next_leading_paren_panics :
  Next 10 (mkLexer (mkData "(a)" 0 0 0 0 []) (Some ActionFn)) = Panic NilDereference.
Proof. reflexivity. Qed.

End LexerFacts.

(** * Properties of the evaluator and of the code generator *)
Section CompilerFacts.
Import token compiler.
Context {E : Env}.

(** C9. A binary expression whose operands (each a basic literal, or a call
    whose callee is bound to one) are both of kind INT evaluates to the empty
    string with a nil error: nothing is computed and nothing is reported, the
    value list made of it alone simplifies to the empty string, and the rule
    printed for it carries an empty value before its semicolon. *)
Theorem calculateExprs_int_int
  (ctx : Context) (op : Token) (X Y : Expr) (vx vy : string) :
  operand X = Ret (int vx) -> operand Y = Ret (int vy) ->
  calculateExprs ctx op X Y = Ret ("", None)
  /\ simplifyExprs ctx [EBinaryExpr op X Y] = Ret (("", None), ctx)
  /\ forall name,
       printRuleSpec name [EBinaryExpr op X Y] ctx
       = obind (blockIntro ctx) (fun c =>
         obind (out ("  " ++ name ++ ": ") (set_scope (RuleAdd (scope c)) c)) (fun c =>
         Ret (write ";" (set_err None c)))).
Proof.
  intros HX HY.
  assert (Hcalc : forall c, calculateExprs c op X Y = Ret ("", None)).
  { intros c. unfold calculateExprs. rewrite HX, HY. reflexivity. }
  assert (Hsimp : forall c,
             simplifyExprs c [EBinaryExpr op X Y] = Ret (("", None), c)).
  { intros c. unfold simplifyExprs, simplifyWith.
    cbn [resolveAll resolveExpr]. rewrite Hcalc. reflexivity. }
  split; [apply Hcalc | split; [apply Hsimp |]].
  intros name. unfold printRuleSpec.
  destruct (blockIntro ctx) as [c | | |]; cbn [obind]; try reflexivity.
  destruct (out _ _) as [c' | | |]; cbn [obind]; try reflexivity.
  rewrite Hsimp. reflexivity.
Qed.

(** The resolving loop on plain literals collects their values. *)
Lemma resolveAll_words (ctx : Context) (ws : list BasicLit) :
  Forall (fun lit => token.eqb (Kind lit) VAR = false) ws ->
  forall sums,
    resolveAll resolveExpr ctx (map (fun lit => EBasicLit (Some lit)) ws) sums
    = Ret (inl (sums ++ map Value ws), ctx).
Proof.
  induction 1 as [| lit ws Hlit _ IH]; intros sums; cbn [map resolveAll].
  - now rewrite app_nil_r.
  - cbn [resolveExpr]. rewrite Hlit. cbn [obind].
    rewrite IH, <- app_assoc. reflexivity.
Qed.

(** What the code does on a value list between two markers: besides the
    markers the value in front of the closing marker is dropped. *)
Lemma simplifyExprs_between_markers (ctx : Context) (mid : list string) (x : string) :
  simplifyExprs ctx (qmark :: map word mid ++ [word x; qmark])
  = Ret (((dquote ++ strings.Join mid " " ++ dquote)%string, None), ctx).
Proof.
  pose (lits := mkLit QSTRING dquote
                :: map (mkLit STRING) mid ++ [mkLit STRING x; mkLit QSTRING dquote]).
  assert (Hexprs : qmark :: map word mid ++ [word x; qmark]
                   = map (fun lit => EBasicLit (Some lit)) lits).
  { unfold lits, qmark, word. cbn [map]. rewrite map_app, map_map. reflexivity. }
  assert (Hvals : map Value lits = dquote :: mid ++ [x; dquote]).
  { unfold lits. cbn [map Value]. rewrite map_app, map_map. cbn [map Value].
    now rewrite map_id. }
  assert (Hall : resolveAll resolveExpr ctx
                   (qmark :: map word mid ++ [word x; qmark]) []
                 = Ret (inl (dquote :: mid ++ [x; dquote]), ctx)).
  { rewrite Hexprs, resolveAll_words, Hvals; [reflexivity |].
    unfold lits. constructor; [reflexivity |].
    apply Forall_app. split.
    - apply Forall_map, Forall_forall. reflexivity.
    - repeat constructor. }
  assert (Hlast : List.last (qmark :: map word mid ++ [word x; qmark]) qmark = qmark).
  { replace (qmark :: map word mid ++ [word x; qmark])
      with ((qmark :: map word mid ++ [word x]) ++ [qmark])
      by (cbn; rewrite <- app_assoc; reflexivity).
    apply last_last. }
  assert (Hlen : Z.of_nat (List.length (qmark :: map word mid ++ [word x; qmark]))
                 = Z.of_nat (List.length mid) + 3).
  { cbn [List.length]. rewrite length_app, length_map. cbn [List.length]. lia. }
  unfold simplifyExprs, simplifyWith.
  rewrite Hall. cbn [obind]. rewrite Hlen, Hlast.
  cbn [isQString qmark Kind token.eqb obind Z.eqb].
  unfold sliceList.
  replace ((0 <=? 1) && (1 <=? Z.of_nat (List.length mid) + 3 - 2)
           && (Z.of_nat (List.length mid) + 3 - 2 <=? Z.of_nat (List.length mid) + 3))
    with true
    by (symmetry; rewrite !andb_true_iff, !Z.leb_le; lia).
  cbn [obind]. change (Z.to_nat 1) with 1%nat. cbn [skipn].
  replace (Z.to_nat (Z.of_nat (List.length mid) + 3 - 2 - 1))
    with (List.length mid + 0)%nat by lia.
  rewrite firstn_app_2. cbn [firstn]. rewrite app_nil_r. reflexivity.
Qed.

(** C6. On the list of a marker, the values [a] and [b], and a marker, the
    code returns the re-quoted [a] alone: the closing marker moves the end of
    the slice back by two, so the value in front of it is dropped with
    it. *)
Theorem simplifyExprs_drops_value_before_marker (ctx : Context) :
  simplifyExprs ctx [qmark; word "a"; word "b"; qmark]
  = Ret (((dquote ++ "a" ++ dquote)%string, None), ctx).
Proof. exact (simplifyExprs_between_markers ctx ["a"] "b"). Qed.

(** With nothing between the two markers the slice is cut with its end
    before its start. *)
Example simplifyExprs_two_markers_panic (ctx : Context) :
  simplifyExprs ctx [qmark; qmark] = Panic SliceBounds.
Proof. reflexivity. Qed.

(** C4 as amended. When the parser returns an error for the file, [Run] does
    not surface it to its caller as an error value: the error goes to
    [log.Fatal] and the process is left with status 1. On success, which is
    when the parser returns a tree and the walk over it returns without an
    error recorded, [Run] returns the complete text, all that the walk wrote
    (and a closing newline when that is not empty and does not end in one),
    with a nil error. *)
Theorem Run_fatal_on_parse_error (path : string) :
  (forall e, ParseFile path = inr e -> Run path = Exit 1)
  /\ (forall pf c, ParseFile path = inl pf -> Walk Init pf = Ret c ->
      err c = None ->
      Run path = Ret (terminated (buf c), None)).
Proof.
  split.
  - intros e He. unfold Run, Context_Run, Context_run. rewrite He. reflexivity.
  - intros pf c Hpf Hwalk _. unfold Run, Context_Run, Context_run, terminated.
    rewrite Hpf, Hwalk. cbn [obind].
    destruct ((0 <? strings.len (buf c)) && negb (endsWithNewline (buf c)));
      reflexivity.
Qed.

(** Whatever the tree, a block that printed a rule is closed on the line of
    its last rule: [blockOutro] appends a space, the brace and a newline. *)
Lemma blockOutro_closes (c : Context) :
  firstRule c = false ->
  buf (blockOutro c) = (buf c ++ " }" ++ nl)%string
  /\ firstRule (blockOutro c) = true.
Proof.
  intros Hfr. unfold blockOutro. rewrite Hfr. split; reflexivity.
Qed.

(** C5 as amended. When the parser returns the tree of [.a { color: red; }],
    [Run] returns [.a {], a newline, the rule after two spaces, one space and
    the closing brace on the line of the rule, and a newline. *)
Theorem Run_single_rule (path : string) :
  ParseFile path = inl ruleTree ->
  Run path = Ret ((".a {" ++ nl ++ "  color: red; }" ++ nl)%string, None).
Proof.
  intros Hpf. unfold Run, Context_Run, Context_run. rewrite Hpf. reflexivity.
Qed.

End CompilerFacts.

Section CompilerExamples.
Import token compiler.

(** The theorem on [1 + f()] with [f] bound to the integer literal [2]. *)
Lemma calculateExprs_int_int_witness :
  @calculateExprs ruleEnv Init ADD (int "1")
    (ECallExpr (EIdent (mkIdent "f" (Some (DExpr (int "2"))))) [])
  = Ret ("", None).
Proof.
  exact (proj1 (@calculateExprs_int_int ruleEnv Init ADD (int "1")
                  (ECallExpr (EIdent (mkIdent "f" (Some (DExpr (int "2"))))) [])
                  "1" "2" eq_refl eq_refl)).
Defined.

(** The theorem with a parser that rejects the file, and with one that
    returns the tree of the single rule. *)
Lemma Run_fatal_on_parse_error_witness :
  @Run failingEnv "input.scss" = Exit 1
  /\ @Run ruleEnv "input.scss"
     = Ret ((".a {" ++ nl ++ "  color: red; }" ++ nl)%string, None).
Proof.
  split.
  - exact (proj1 (@Run_fatal_on_parse_error failingEnv "input.scss") _ eq_refl).
  - exact (proj2 (@Run_fatal_on_parse_error ruleEnv "input.scss") ruleTree
             (mkContext (".a {" ++ nl ++ "  color: red; }" ++ nl) None
                        (Some (mkLit STRING ".a")) true 0 [O])
             eq_refl eq_refl eq_refl).
Defined.

(** C4, the claim as stated fails: with a parser that returns an error,
    [Run] hands no error value to its caller. *)
Lemma Run_returns_no_error_value :
  ~ exists (text : string) (e : error),
      @Run failingEnv "input.scss" = Ret (text, Some e).
Proof. intros (text & e & H). discriminate H. Qed.

Lemma Run_single_rule_witness :
  @Run ruleEnv "input.scss"
  = Ret ((".a {" ++ nl ++ "  color: red; }" ++ nl)%string, None).
Proof. exact (@Run_single_rule ruleEnv "input.scss" eq_refl). Defined.

(** C5, the claim as stated fails: the text returned for the single rule is
    not the one with the closing brace on a line of its own. *)
Lemma Run_single_rule_brace_not_on_own_line :
  @Run ruleEnv "input.scss"
  <> Ret ((".a {" ++ nl ++ "  color: red;" ++ nl ++ "}" ++ nl)%string, None).
Proof. intros H. vm_compute in H. discriminate H. Qed.

End CompilerExamples.

(** * Further properties of the lexer primitives *)
Section StringFacts.

Lemma length_drop (n : nat) (s : string) :
  String.length (strings.drop n s) = (String.length s - n)%nat.
Proof.
  unfold strings.drop. revert s.
  induction n as [| n IH]; intros s; cbn [dropBytes].
  - lia.
  - destruct s as [| c t]; cbn [String.length]; [reflexivity | apply IH].
Qed.

Lemma length_substring (n m : nat) (s : string) :
  (n + m <= String.length s)%nat -> String.length (substring n m s) = m.
Proof.
  revert m s. induction n as [| n IH]; intros m s H.
  - revert s H. induction m as [| m IHm]; intros s H.
    + destruct s; reflexivity.
    + destruct s as [| c t]; cbn in *; [lia |]. rewrite IHm; lia.
  - destruct s as [| c t]; cbn in *; [lia |]. apply IH. lia.
Qed.

Lemma substring_drop (n m : nat) (s : string) :
  substring n m s = substring 0 m (strings.drop n s).
Proof.
  unfold strings.drop. revert s.
  induction n as [| n IH]; intros s; cbn [dropBytes]; [reflexivity |].
  destruct s as [| c t]; [now destruct m | apply IH].
Qed.

(** A string starts with [p] exactly when its first [len(p)] bytes are [p]. *)
Lemma prefix_substring (p s : string) :
  (String.length p <= String.length s)%nat ->
  prefix p (substring 0 (String.length p) s) = prefix p s.
Proof.
  revert s. induction p as [| a p IH]; intros s H.
  - destruct s; reflexivity.
  - destruct s as [| c t]; cbn in *; [lia |].
    destruct (ascii_dec a c); [apply IH; lia | reflexivity].
Qed.

Lemma prefix_length (p s : string) :
  prefix p s = true -> (String.length p <= String.length s)%nat.
Proof.
  revert s. induction p as [| a p IH]; intros s H; cbn; [lia |].
  destruct s as [| c t]; cbn in *; [discriminate |].
  destruct (ascii_dec a c); [| discriminate]. apply IH in H. lia.
Qed.

(** The decoder takes between one and four bytes of a non-empty string, and
    no more than there are. *)
Lemma Decode_width (s : string) :
  s <> EmptyString ->
  1 <= snd (utf8.DecodeRuneInString s) <= 4
  /\ snd (utf8.DecodeRuneInString s) <= strings.len s.
Proof.
  intros Hne. unfold strings.len.
  destruct s as [| c0 t0]; [congruence |].
  unfold utf8.DecodeRuneInString.
  destruct (0xF0 <=? utf8.first (utf8.byteZ c0)); [cbn; lia |].
  destruct (utf8.acceptRanges _) as [lo hi].
  destruct t0 as [| c1 t1]; [cbn; lia |].
  destruct (_ || _); [cbn; lia |].
  destruct (_ <=? 2); [cbn; lia |].
  destruct t1 as [| c2 t2]; [cbn; lia |].
  destruct (negb _); [cbn; lia |].
  destruct (_ <=? 3); [cbn; lia |].
  destruct t2 as [| c3 t3]; [cbn; lia |].
  destruct (negb _); cbn; lia.
Qed.

End StringFacts.

(** Projections of the updated lexer. *)
Ltac fields :=
  cbn [lexer.pos lexer.input lexer.start lexer.items lexer.width lexer.last
       lexer.set_pos lexer.set_width lexer.set_last lexer.set_start
       lexer.set_items].

Ltac records :=
  unfold lexer.set_pos, lexer.set_width, lexer.set_last, lexer.set_start,
    lexer.set_items;
  cbn [lexer.pos lexer.input lexer.start lexer.items lexer.width lexer.last].

Ltac done_with := eexists _, _; split; [reflexivity |]; fields.

Section PrimitiveFacts.
Import utf8 lexer lexaux.

Lemma atCursor_width (l : LexerData) :
  0 <= pos l < strings.len (input l) ->
  1 <= snd (atCursor l) <= 4 /\ pos l + snd (atCursor l) <= strings.len (input l).
Proof.
  intros H. unfold atCursor.
  assert (Hlen : strings.len (strings.drop (Z.to_nat (pos l)) (input l))
                 = strings.len (input l) - pos l).
  { unfold strings.len in *. rewrite length_drop. lia. }
  destruct (Decode_width (strings.drop (Z.to_nat (pos l)) (input l))) as [H1 H2].
  - intros Hnil. rewrite Hnil in Hlen. unfold strings.len in *. cbn in Hlen. lia.
  - lia.
Qed.

(** [Advance] in the terms of [atCursor]. *)
Lemma Advance_unfold (l : LexerData) :
  inBounds l ->
  Advance l
  = if strings.len (input l) <=? pos l then Ret ((EOF, 0), set_width 0 l)
    else
      let '(r, w) := atCursor l in
      let l1 := set_width w (set_last r l) in
      if IsInvalid r w then Ret ((r, w), l1)
      else Ret ((r, w), set_pos (pos l + w) l1).
Proof.
  intros [H0 H1]. unfold Advance, atCursor, IsInvalid.
  destruct (strings.len (input l) <=? pos l); [reflexivity |].
  settle (pos l <? 0) false.
  destruct (DecodeRuneInString _) as [r w]. reflexivity.
Qed.

(** X1. With the cursor inside the input [Advance] returns, never moves the
    cursor backwards or past the end, and touches neither the input, the
    start of the lexeme nor the queue; the width it returns is the width it
    stores, it is zero exactly at the end of the input, and the cursor moves
    by it unless the encoding is invalid. *)
Theorem Advance_in_bounds (l : LexerData) :
  inBounds l ->
  exists r n l',
    Advance l = Ret ((r, n), l')
    /\ pos l <= pos l' <= strings.len (input l')
    /\ input l' = input l /\ start l' = start l /\ items l' = items l
    /\ width l' = n
    /\ (n = 0 <-> strings.len (input l) <= pos l)
    /\ pos l' = (if IsInvalid r n then pos l else pos l + n).
Proof.
  intros Hb. rewrite (Advance_unfold l Hb). destruct Hb as [H0 H1].
  destruct (strings.len (input l) <=? pos l) eqn:Hend.
  - apply Z.leb_le in Hend.
    exists EOF, 0, (set_width 0 l). cbn. repeat split; try lia.
  - apply Z.leb_gt in Hend.
    destruct (atCursor_width l ltac:(lia)) as [Hw Hfit].
    destruct (atCursor l) as [r w]. cbn [snd] in *. cbn zeta.
    destruct (IsInvalid r w) eqn:Hinv.
    + exists r, w, (set_width w (set_last r l)). rewrite Hinv. cbn.
      repeat split; try lia.
    + exists r, w, (set_pos (pos l + w) (set_width w (set_last r l))).
      rewrite Hinv. cbn. repeat split; try lia.
Qed.

Lemma Advance_in_bounds_witness :
  exists r n l',
    Advance (mkData "ab" 0 1 0 0 []) = Ret ((r, n), l')
    /\ 1 <= pos l' <= 2.
Proof.
  destruct (Advance_in_bounds (mkData "ab" 0 1 0 0 []) ltac:(unfold inBounds; cbn; lia))
    as (r & n & l' & Hadv & Hpos & Hin & _).
  exists r, n, l'. split; [exact Hadv |].
  rewrite Hin in Hpos. exact Hpos.
Defined.

(** [Peek], [Accept] and [AcceptFunc] after [Advance_unfold]. *)
Ltac run_advance l Hb :=
  unfold bind; rewrite (Advance_unfold l Hb); unfold invalidAtCursor, sameText;
  destruct Hb as [? ?];
  let Hend := fresh "Hend" in
  destruct (strings.len (input l) <=? pos l) eqn:Hend;
  [ apply Z.leb_le in Hend; settle (pos l <? strings.len (input l)) false;
    cbn [andb]
  | apply Z.leb_gt in Hend; settle (pos l <? strings.len (input l)) true;
    cbn [andb];
    let Hw := fresh "Hw" in
    let Hfit := fresh "Hfit" in
    destruct (atCursor_width l ltac:(lia)) as [Hw Hfit];
    destruct (atCursor l) as [r w]; cbn [fst snd] in *; cbn zeta ].

(** X2. [Peek] leaves the cursor where it was, except on an invalid
    encoding: [Advance] does not move then, the [Backup] that follows still
    subtracts the width 1, and the cursor ends one byte before where it
    was. *)
Theorem Peek_cursor (l : LexerData) :
  inBounds l ->
  exists rn l',
    Peek l = Ret (rn, l') /\ sameText l l'
    /\ pos l' = (if invalidAtCursor l then pos l - 1 else pos l).
Proof.
  intros Hb. unfold Peek. run_advance l Hb.
  - done_with. repeat split. lia.
  - destruct (IsInvalid r w) eqn:Hinv.
    + done_with. repeat split.
      unfold IsInvalid in Hinv. apply andb_true_iff in Hinv as [_ Hw1].
      apply Z.eqb_eq in Hw1. lia.
    + done_with. repeat split. lia.
Qed.

Lemma Peek_cursor_witness :
  exists rn l',
    Peek (mkData loneFF 0 0 0 0 []) = Ret (rn, l') /\ pos l' = -1.
Proof.
  destruct (Peek_cursor (mkData loneFF 0 0 0 0 []) ltac:(unfold inBounds; cbn; lia))
    as (rn & l' & Hpeek & _ & Hpos).
  exists rn, l'. split; [exact Hpeek | exact Hpos].
Defined.

(** X3. [Accept] takes the rune that [Advance] returns exactly when
    [strings.IndexRune] finds it in [valid]. Away from an invalid encoding a
    rune taken moves the cursor by the width stored and a rune refused leaves
    the cursor where it was. On an invalid encoding [Advance] does not move:
    the error rune is taken without moving when [valid] holds an invalid
    byte or U+FFFD, and refused otherwise, the cursor ending one byte back.
    Input, start and queue are untouched. *)
Theorem Accept_cursor (valid : string) (l : LexerData) :
  inBounds l ->
  exists ok l',
    Accept valid l = Ret (ok, l') /\ sameText l l'
    /\ ok = strings.HasRune valid
               (if strings.len (input l) <=? pos l then EOF else fst (atCursor l))
    /\ pos l' = (if invalidAtCursor l
                 then (if ok then pos l else pos l - 1)
                 else (if ok then pos l + width l' else pos l)).
Proof.
  intros Hb. unfold Accept. run_advance l Hb.
  - destruct (strings.HasRune valid EOF); done_with; repeat split; lia.
  - destruct (IsInvalid r w) eqn:Hinv.
    + unfold IsInvalid in Hinv. apply andb_true_iff in Hinv as [Hr Hw1].
      apply Z.eqb_eq in Hr, Hw1. subst r w.
      destruct (strings.HasRune valid RuneError); done_with; repeat split; lia.
    + destruct (strings.HasRune valid r); done_with; repeat split; lia.
Qed.

Lemma Accept_cursor_witness :
  exists ok l',
    Accept loneFF (mkData ("(" ++ loneFF) 0 1 0 0 []) = Ret (ok, l')
    /\ ok = true /\ pos l' = 1.
Proof.
  destruct (Accept_cursor loneFF (mkData ("(" ++ loneFF) 0 1 0 0 [])
              ltac:(unfold inBounds; cbn; lia))
    as (ok & l' & Hacc & _ & Hok & Hpos).
  exists ok, l'. split; [exact Hacc |].
  assert (Htaken : ok = true) by exact Hok.
  split; [exact Htaken |]. rewrite Htaken in Hpos. exact Hpos.
Defined.

(** What one call of [AcceptFunc] does to the cursor. *)
Lemma AcceptFunc_outcome (fn : rune -> bool) (l : LexerData) :
  inBounds l ->
  exists ok l',
    AcceptFunc fn l = Ret (ok, l') /\ sameText l l'
    /\ (if ok
        then fn (last l') = true /\ 1 <= width l'
             /\ pos l' = pos l + width l' /\ pos l' <= strings.len (input l)
        else pos l' = pos l).
Proof.
  intros Hb. unfold AcceptFunc. run_advance l Hb.
  - done_with. repeat split.
  - destruct (IsInvalid r w) eqn:Hinv.
    + rewrite Hinv.
      replace (IsEOF r w) with false
        by (symmetry; unfold IsEOF; apply Z.eqb_neq; lia).
      done_with. repeat split.
    + replace (IsEOF r w) with false
        by (symmetry; unfold IsEOF; apply Z.eqb_neq; lia).
      rewrite Hinv. destruct (fn r) eqn:Hfn.
      * done_with. repeat split; try assumption; lia.
      * done_with. repeat split; lia.
Qed.



(** A refusal of [AcceptFunc] is repeated on the lexer it leaves. *)
Lemma AcceptFunc_refusal_stable (fn : rune -> bool) (l l' : LexerData) :
  inBounds l -> AcceptFunc fn l = Ret (false, l') ->
  AcceptFunc fn l' = Ret (false, l').
Proof.
  intros Hb Hacc. revert Hacc. unfold AcceptFunc, bind.
  rewrite (Advance_unfold l Hb).
  destruct Hb as [H0 H1].
  destruct (strings.len (input l) <=? pos l) eqn:Hend.
  - cbn. intros [= <-]. unfold Advance. fields. rewrite Hend. reflexivity.
  - apply Z.leb_gt in Hend.
    destruct (atCursor_width l ltac:(lia)) as [Hw Hfit].
    unfold atCursor in *.
    destruct (DecodeRuneInString _) as [r w] eqn:Hdec. cbn [snd] in *. cbn zeta.
    assert (Heof : IsEOF r w = false) by (unfold IsEOF; apply Z.eqb_neq; lia).
    destruct (IsInvalid r w) eqn:Hinv.
    + rewrite Heof, Hinv. intros [= <-].
      unfold Advance. fields.
      settle (strings.len (input l) <=? pos l) false.
      settle (pos l <? 0) false.
      rewrite Hdec. unfold IsInvalid in Hinv. rewrite Hinv.
      rewrite Heof. unfold IsInvalid. rewrite Hinv. reflexivity.
    + rewrite Heof, Hinv. destruct (fn r) eqn:Hfn; [discriminate |].
      unfold Backup, modify. fields. intros [= <-].
      unfold Advance. fields.
      replace (pos l + w - w) with (pos l) by lia.
      settle (strings.len (input l) <=? pos l) false.
      settle (pos l <? 0) false.
      rewrite Hdec. unfold IsInvalid in Hinv. rewrite Hinv.
      rewrite Heof. unfold IsInvalid. rewrite Hinv, Hfn.
      unfold Backup, modify. fields.
      replace (pos l + w - w) with (pos l) by lia. reflexivity.
Qed.

(** X5. [AcceptRunFunc] ends: one turn more than there are bytes after the
    cursor is budget enough. It moves the cursor forward only, counts no more
    runes than bytes passed, touches neither input, start nor queue, and
    stops where [AcceptFunc] refuses. *)
Theorem AcceptRunFunc_ends (fn : rune -> bool) (fuel : nat) :
  forall l : LexerData,
    inBounds l ->
    strings.len (input l) - pos l < Z.of_nat fuel ->
    exists n l',
      AcceptRunFunc fuel fn l = Ret (n, l') /\ sameText l l'
      /\ pos l <= pos l' <= strings.len (input l)
      /\ 0 <= n <= pos l' - pos l
      /\ AcceptFunc fn l' = Ret (false, l').
Proof.
  induction fuel as [| fuel IH]; intros l Hb Hfuel.
  - destruct Hb. lia.
  - cbn [AcceptRunFunc]. unfold bind.
    destruct (AcceptFunc_outcome fn l Hb) as (ok & l1 & Hacc & (Hin & Hst & Hit) & Hok).
    rewrite Hacc. destruct ok.
    + destruct Hok as (_ & Hw & Hpos & Hle).
      destruct (IH l1) as (n & l' & Hrun & (Hin' & Hst' & Hit') & Hpos' & Hn & Hstop).
      * unfold inBounds. rewrite Hin. destruct Hb. lia.
      * rewrite Hin. lia.
      * rewrite Hrun. exists (n + 1), l'. unfold sameText.
        rewrite Hin in *. repeat split; try congruence; lia.
    + exists 0, l1. unfold sameText. destruct Hb.
      repeat split; try assumption; try lia.
      eapply AcceptFunc_refusal_stable; [| exact Hacc]. split; assumption.
Qed.

Lemma AcceptRunFunc_ends_witness :
  exists n l',
    AcceptRunFunc 4 (fun r => r =? 97) (mkData "aab" 0 0 0 0 []) = Ret (n, l')
    /\ 0 <= pos l' <= 3.
Proof.
  destruct (AcceptRunFunc_ends (fun r => r =? 97) 4 (mkData "aab" 0 0 0 0 [])
              ltac:(unfold inBounds; cbn; lia) ltac:(cbn; lia))
    as (n & l' & Hrun & _ & Hpos & _).
  exists n, l'. split; [exact Hrun | exact Hpos].
Defined.

(** What one call of [AcceptString] returns with the cursor inside the input. *)
Lemma AcceptString_unfold (s : string) (l : LexerData) :
  inBounds l ->
  let found := prefix s (strings.drop (Z.to_nat (pos l)) (input l)) in
  AcceptString s l
  = Ret (found, if found then set_pos (pos l + strings.len s) l else l).
Proof.
  intros [H0 H1] found. unfold AcceptString, strings.slice, strings.HasPrefix.
  assert (Hdrop : strings.len (strings.drop (Z.to_nat (pos l)) (input l))
                  = strings.len (input l) - pos l)
    by (unfold strings.len in *; rewrite length_drop; lia).
  destruct (strings.len (input l) - pos l <? strings.len s) eqn:Hshort.
  - apply Z.ltb_lt in Hshort.
    destruct found eqn:Hfound; [| reflexivity].
    apply prefix_length in Hfound. unfold strings.len in *. lia.
  - apply Z.ltb_ge in Hshort.
    pose proof (Nat2Z.is_nonneg (String.length s)) as Hs0.
    fold (strings.len s) in Hs0.
    settle (0 <=? pos l) true.
    settle (pos l <=? pos l + strings.len s) true.
    settle (pos l + strings.len s <=? strings.len (input l)) true.
    cbn [andb obind].
    replace (Z.to_nat (pos l + strings.len s - pos l)) with (String.length s)
      by (unfold strings.len; lia).
    rewrite substring_drop, prefix_substring
      by (unfold strings.len in *; lia).
    subst found. now destruct (prefix s _).
Qed.

(** X6. With the cursor inside the input [AcceptString] returns whether the
    input at the cursor starts with the string; when it does the cursor
    moves past it, and when it does not the lexer is left as it was. *)
Theorem AcceptString_prefix (s : string) (l : LexerData) :
  inBounds l ->
  let found := prefix s (strings.drop (Z.to_nat (pos l)) (input l)) in
  AcceptString s l
  = Ret (found, if found then set_pos (pos l + strings.len s) l else l).
Proof.
  exact (AcceptString_unfold s l).
Qed.

Lemma AcceptString_prefix_witness :
  AcceptString "@if" (mkData "a @if b" 0 2 0 0 [])
  = Ret (true, mkData "a @if b" 0 5 0 0 []).
Proof.
  exact (AcceptString_prefix "@if" (mkData "a @if b" 0 2 0 0 [])
           ltac:(unfold inBounds; cbn; lia)).
Defined.

(** X7. With [0 <= start <= pos <= len(input)], [Emit] appends exactly one
    item to the back of the queue: of the given type, at the old start, and
    holding the current lexeme, the [pos - start] bytes of the input from
    [start] on. It moves the start to the cursor, so that the current lexeme
    is empty afterwards, and leaves cursor and input as they were. *)
Theorem Emit_appends (t : ItemType) (l : LexerData) :
  0 <= start l <= pos l -> pos l <= strings.len (input l) ->
  let text :=
    substring (Z.to_nat (start l)) (Z.to_nat (pos l - start l)) (input l) in
  exists l',
    Emit t l = Ret (tt, l')
    /\ Current l = Ret (text, l)
    /\ items l' = items l ++ [mkItem t (start l) text]
    /\ strings.len text = pos l - start l
    /\ start l' = pos l /\ pos l' = pos l /\ input l' = input l
    /\ Current l' = Ret (EmptyString, l').
Proof.
  intros Hs Hp text. subst text.
  unfold Emit, bind, gets, Current, enqueue, modify, strings.slice.
  settle (0 <=? start l) true. settle (start l <=? pos l) true.
  settle (pos l <=? strings.len (input l)) true. cbn [andb obind].
  eexists. split; [reflexivity |]. fields.
  repeat split.
  - unfold strings.len in *. rewrite length_substring by lia. lia.
  - settle (0 <=? pos l) true. rewrite Z.leb_refl.
    settle (pos l <=? strings.len (input l)) true. cbn [andb obind].
    rewrite Z.sub_diag. cbn [Z.to_nat].
    replace (substring (Z.to_nat (pos l)) 0 (input l)) with EmptyString;
      [reflexivity |].
    generalize (Z.to_nat (pos l)) as n. generalize (input l) as s.
    induction s as [| c s IH]; intros [| n]; cbn; auto.
Qed.

Lemma Emit_appends_witness :
  exists l',
    Emit TEXT (mkData ".a {" 0 2 1 97 []) = Ret (tt, l')
    /\ items l' = [mkItem TEXT 0 ".a"] /\ start l' = 2.
Proof.
  destruct (Emit_appends TEXT (mkData ".a {" 0 2 1 97 [])
              ltac:(cbn; lia) ltac:(cbn; lia))
    as (l' & Hemit & _ & Hitems & _ & Hstart & _).
  exists l'. repeat split; assumption.
Defined.

(** X8. [Next] serves the queue first and in order: as many calls as there
    are queued items return them front to back, and neither the state
    function nor any field but the queue is touched. *)
Theorem pull_serves_queue (fuel : nat) (q : list Item) :
  forall (rest : list Item) (l : Lexer),
    items (data l) = q ++ rest ->
    pull (S fuel) (List.length q) l
    = Ret (q, mkLexer (set_items rest (data l)) (state l)).
Proof.
  induction q as [| i q IH]; intros rest l Hq.
  - cbn in *. destruct l as [[inp st p w la its] sf]. cbn in *. now subst.
  - cbn [List.length pull Next]. unfold dequeue. rewrite Hq. cbn [app obind].
    rewrite (IH rest) by reflexivity. reflexivity.
Qed.

Lemma pull_serves_queue_witness :
  pull 1 2 (mkLexer (mkData "a b" 3 3 0 0
                       [mkItem TEXT 0 "a"; mkItem TEXT 2 "b"; mkItem ItemEOF 3 ""])
                    None)
  = Ret ([mkItem TEXT 0 "a"; mkItem TEXT 2 "b"],
         mkLexer (mkData "a b" 3 3 0 0 [mkItem ItemEOF 3 ""]) None).
Proof.
  exact (pull_serves_queue 0 [mkItem TEXT 0 "a"; mkItem TEXT 2 "b"]
           [mkItem ItemEOF 3 ""]
           (mkLexer (mkData "a b" 3 3 0 0
                       [mkItem TEXT 0 "a"; mkItem TEXT 2 "b"; mkItem ItemEOF 3 ""])
                    None)
           eq_refl).
Defined.

(** A lexer in the nil state with an empty queue answers every call with
    the end-of-stream item. *)
Lemma pull_nil_state (fuel n : nat) (d : LexerData) :
  items d = [] ->
  pull (S fuel) n (mkLexer d None)
  = Ret (repeat (mkItem ItemEOF (start d) "") n, mkLexer d None).
Proof.
  intros Hq. induction n as [| n IH]; [reflexivity |].
  cbn [pull repeat Next data state]. unfold dequeue. rewrite Hq. cbn [obind].
  rewrite IH. reflexivity.
Qed.

(** X9. A state function that calls [Errorf] ends the scan: the next call
    of [Next] returns the one error item, with the message and at the start
    of the lexeme, and every call after it the end-of-stream item; start and
    cursor stay where they were. *)
Theorem Errorf_then_end_of_stream (msg : string) (fuel n : nat) (d : LexerData) :
  items d = [] ->
  pull (S (S fuel)) (S n) (mkLexer d (Some (failWith msg)))
  = Ret (mkItem ItemError (start d) msg
           :: repeat (mkItem ItemEOF (start d) "") n,
         mkLexer d None).
Proof.
  intros Hq. destruct d as [inp st p w la its]. cbn in Hq. subst its.
  cbn [pull]. 
  assert (Hfirst : Next (S (S fuel)) (mkLexer (mkData inp st p w la []) (Some (failWith msg)))
                   = Ret (mkItem ItemError st msg, mkLexer (mkData inp st p w la []) None))
    by reflexivity.
  rewrite Hfirst. cbn [obind].
  rewrite pull_nil_state by reflexivity. reflexivity.
Qed.

Lemma Errorf_then_end_of_stream_witness :
  pull 2 3 (mkLexer (mkData "a ^ b" 2 2 0 0 []) (Some (failWith "unexpected ^")))
  = Ret ([mkItem ItemError 2 "unexpected ^"; mkItem ItemEOF 2 ""; mkItem ItemEOF 2 ""],
         mkLexer (mkData "a ^ b" 2 2 0 0 []) None).
Proof.
  exact (Errorf_then_end_of_stream "unexpected ^" 0 2 (mkData "a ^ b" 2 2 0 0 []) eq_refl).
Defined.

End PrimitiveFacts.

Section ScanFacts.
Import utf8 lexer lexaux.
Context {T : unicode.Tables}.

Lemma length_append (s t : string) :
  String.length (s ++ t) = (String.length s + String.length t)%nat.
Proof. induction s as [| c s IH]; cbn; [reflexivity | now rewrite IH]. Qed.

Lemma append_assoc (s t u : string) : ((s ++ t) ++ u = s ++ (t ++ u))%string.
Proof. induction s as [| c s IH]; cbn; [reflexivity | now rewrite IH]. Qed.

Lemma append_empty_r (s : string) : (s ++ "")%string = s.
Proof. induction s as [| c s IH]; cbn; [reflexivity | now rewrite IH]. Qed.

Lemma drop_append (s t : string) : strings.drop (String.length s) (s ++ t) = t.
Proof. induction s as [| c s IH]; cbn; [reflexivity | exact IH]. Qed.

(** An ASCII byte decodes to itself. *)
Lemma Decode_ascii (c : ascii) (t : string) :
  byteZ c < 0x80 -> DecodeRuneInString (String c t) = (byteZ c, 1).
Proof.
  intros Hc. unfold DecodeRuneInString, first.
  settle (byteZ c <? 0x80) true. reflexivity.
Qed.

Lemma asciiSpace_facts (c : ascii) :
  asciiSpace c = true ->
  byteZ c < 0x80 /\ IsSpace (byteZ c) = true
  /\ (byteZ c =? EOF) = false /\ IsInvalid (byteZ c) 1 = false.
Proof.
  unfold asciiSpace. intros H. apply orb_true_iff in H.
  assert (Hrange : (9 <= byteZ c <= 13) \/ byteZ c = 32).
  { destruct H as [H | H].
    - apply andb_true_iff in H as [H1 H2]. apply Z.leb_le in H1, H2. lia.
    - apply Z.eqb_eq in H. lia. }
  clear H. split; [lia | split; [| split]].
  - unfold IsSpace, unicode.IsSpace.
    settle (0 <=? byteZ c) true. settle (byteZ c <=? 0xFF) true. cbn [andb].
    destruct Hrange as [[H1 H2] | H].
    + settle (9 <=? byteZ c) true. settle (byteZ c <=? 13) true. reflexivity.
    + rewrite H. reflexivity.
  - unfold EOF. apply Z.eqb_neq. lia.
  - unfold IsInvalid, RuneError. settle (byteZ c =? 65533) false. reflexivity.
Qed.

(** One turn of the loop of [Action]: at the end of the input, and on a
    rune of white space. *)
Lemma Action_at_end (n : nat) (l l1 : LexerData) (w : Z) :
  Advance l = Ret ((EOF, w), l1) ->
  Action (S n) l
  = Ret (None, set_items (items l1 ++ [mkItem ItemEOF (start l1) ""]) l1).
Proof.
  intros Hadv. cbn [Action]. unfold bind at 1. rewrite Hadv.
  reflexivity.
Qed.

Lemma Action_on_space (n : nat) (l l1 : LexerData) (r : rune) (w : Z) :
  Advance l = Ret ((r, w), l1) ->
  (r =? EOF) = false -> IsSpace r = true ->
  Action (S n) l = Action n (set_start (pos l1) l1).
Proof.
  intros Hadv Heof Hsp. cbn [Action]. unfold bind at 1. rewrite Hadv.
  rewrite Heof, Hsp. reflexivity.
Qed.

(** [Action] over a tail of white space: it is skipped, the end-of-stream
    item is queued at the end of the input, and the state is nil. *)
Lemma Action_skips_space (suf : string) :
  forall (pre : string) (k : nat) (st w : Z) (la : rune) (its : list Item),
    allSpace suf = true ->
    exists la',
      Action (S (String.length suf + k))
             (mkData (pre ++ suf) st (strings.len pre) w la its)
      = Ret (None,
             let st' := match suf with
                        | EmptyString => st
                        | _ => strings.len (pre ++ suf)
                        end in
             mkData (pre ++ suf) st' (strings.len (pre ++ suf)) 0 la'
                    (its ++ [mkItem ItemEOF st' ""])).
Proof.
  induction suf as [| c t IH]; intros pre k st w la its Hall.
  - exists la. erewrite Action_at_end.
    2:{ unfold Advance. fields. rewrite append_empty_r, Z.leb_refl.
        reflexivity. }
    rewrite append_empty_r. reflexivity.
  - cbn [allSpace] in Hall. apply andb_true_iff in Hall as [Hc Ht].
    destruct (asciiSpace_facts c Hc) as (Hlt & Hsp & Heof & Hinv).
    destruct (IH (pre ++ String c "")%string k
                 (strings.len pre + 1) 1 (byteZ c) its Ht) as [la' Hrun].
    exists la'.
    assert (Hin : ((pre ++ String c "") ++ t)%string = (pre ++ String c t)%string)
      by (now rewrite append_assoc).
    assert (Hlen1 : strings.len (pre ++ String c "") = strings.len pre + 1)
      by (unfold strings.len; rewrite length_append; cbn; lia).
    rewrite Hin, Hlen1 in Hrun.
    cbn [String.length Nat.add].
    erewrite Action_on_space; [| | exact Heof | exact Hsp].
    2:{ unfold Advance. fields.
        replace (strings.len (pre ++ String c t) <=? strings.len pre) with false
          by (symmetry; apply Z.leb_gt; unfold strings.len;
              rewrite length_append; cbn; lia).
        replace (strings.len pre <? 0) with false
          by (symmetry; apply Z.ltb_ge; unfold strings.len; lia).
        replace (Z.to_nat (strings.len pre)) with (String.length pre)
          by (unfold strings.len; lia).
        rewrite drop_append, Decode_ascii by exact Hlt.
        unfold IsInvalid in Hinv. rewrite Hinv. reflexivity. }
    records. rewrite Hrun. cbn zeta.
    destruct t; [rewrite <- Hlen1 |]; reflexivity.
Qed.

(** X10. An input of ASCII white space only (the empty input too) scans to
    the end-of-stream item alone: the first call of [Next] returns it, at the
    offset of the end of the input, nothing else was queued, and the lexer
    is left in the nil state with start and cursor at the end. *)
Theorem Next_white_space_only (s : string) (k : nat) :
  allSpace s = true ->
  exists d,
    Next (S (S (String.length s + k)))
         (mkLexer (mkData s 0 0 0 0 []) (Some ActionFn))
    = Ret (mkItem ItemEOF (strings.len s) "", mkLexer d None)
    /\ items d = [] /\ start d = strings.len s /\ pos d = strings.len s
    /\ input d = s.
Proof.
  intros Hall.
  destruct (Action_skips_space s "" k 0 0 0 [] Hall) as [la' Hrun].
  cbn [append] in Hrun. change (strings.len "") with 0 in Hrun.
  cbn [Next dequeue data items state ActionFn].
  rewrite Hrun. cbn zeta. cbn [app].
  assert (Hst : match s with
                | EmptyString => 0
                | String _ _ => strings.len s
                end = strings.len s) by (destruct s; reflexivity).
  rewrite Hst.
  destruct (String.length s + k)%nat eqn:Hfuel;
    cbn [Next dequeue data items state set_items];
    eexists; (split; [reflexivity |]); fields; repeat split.
Qed.

End ScanFacts.

Lemma Next_white_space_only_witness :
  exists d,
    lexer.Next 5 (lexer.mkLexer (lexer.mkData "   " 0 0 0 0 [])
                      (Some (@lexer.ActionFn unicode.asciiTables)))
    = Ret (lexer.mkItem lexer.ItemEOF 3 "", lexer.mkLexer d None)
    /\ lexer.items d = [].
Proof.
  destruct (@Next_white_space_only unicode.asciiTables "   " 0 eq_refl)
    as (d & Hnext & Hq & _).
  exists d. split; [exact Hnext | exact Hq].
Defined.

Section MathFacts.
Import utf8 lexer lexaux.
Context {T : unicode.Tables}.

(** [Accept] with the cursor on an ASCII byte. *)
Lemma Accept_at_ascii (valid pre : string) (c : ascii) (t : string)
  (st w : Z) (la : rune) (its : list Item) :
  byteZ c < 0x80 ->
  Accept valid (mkData (pre ++ String c t) st (strings.len pre) w la its)
  = Ret (strings.HasRune valid (byteZ c),
         mkData (pre ++ String c t) st
                (if strings.HasRune valid (byteZ c)
                 then strings.len pre + 1 else strings.len pre)
                1 (byteZ c) its).
Proof.
  intros Hlt. unfold Accept, bind, Advance. fields.
  replace (strings.len (pre ++ String c t) <=? strings.len pre) with false
    by (symmetry; apply Z.leb_gt; unfold strings.len;
        rewrite length_append; cbn; lia).
  replace (strings.len pre <? 0) with false
    by (symmetry; apply Z.ltb_ge; unfold strings.len; lia).
  replace (Z.to_nat (strings.len pre)) with (String.length pre)
    by (unfold strings.len; lia).
  rewrite drop_append, Decode_ascii by exact Hlt.
  replace ((byteZ c =? RuneError) && (1 =? 1)) with false
    by (symmetry; apply andb_false_iff; left; apply Z.eqb_neq;
        unfold RuneError; lia).
  records.
  destruct (strings.HasRune valid (byteZ c)); [reflexivity |].
  unfold Backup, modify, ret. records.
  replace (strings.len pre + 1 - 1) with (strings.len pre) by lia.
  reflexivity.
Qed.

Lemma Emit_at (t : ItemType) (inp : string) (st p w : Z) (la : rune)
  (its : list Item) :
  0 <= st <= p -> p <= strings.len inp ->
  Emit t (mkData inp st p w la its)
  = Ret (tt, mkData inp p p w la
               (its ++ [mkItem t st (substring (Z.to_nat st) (Z.to_nat (p - st)) inp)])).
Proof.
  intros Hs Hp.
  unfold Emit, bind, gets, Current, enqueue, modify, strings.slice. fields.
  settle (0 <=? st) true. settle (st <=? p) true.
  settle (p <=? strings.len inp) true. reflexivity.
Qed.

(** X11. With the cursor on one of the four arithmetic symbols [Math] emits
    exactly one item, from the start of the lexeme to just past the symbol,
    and hands over to [Action] one byte further; the item type is MULT for
    the slash as it is for the star, PLUS for the plus sign and MINUS for the
    minus sign. *)
Theorem Math_emits_one (k : nat) (pre : string) (c : ascii) (t : string)
  (st w : Z) (la : rune) (its : list Item) (ty : ItemType) :
  mathType c = Some ty ->
  0 <= st <= strings.len pre ->
  let inp := (pre ++ String c t)%string in
  let p := strings.len pre + 1 in
  Math (S k) (mkData inp st (strings.len pre) w la its)
  = Action k (mkData inp p p 1 (byteZ c)
                (its ++ [mkItem ty st
                           (substring (Z.to_nat st) (Z.to_nat (p - st)) inp)])).
Proof.
  intros Hty Hst inp p.
  assert (Hp : p <= strings.len inp).
  { unfold p, inp, strings.len. rewrite length_append. cbn. lia. }
  subst inp p.
  unfold mathType in Hty.
  cbn [Math]. unfold bind at 1. unfold bind at 1.
  destruct (Ascii.eqb_spec c "*") as [-> | _].
  { injection Hty as <-.
    rewrite Accept_at_ascii by (cbn; lia). cbn [strings.HasRune].
    change (strings.HasRune "*" (byteZ "*")) with true. cbn iota.
    rewrite Emit_at by lia. reflexivity. }
  destruct (Ascii.eqb_spec c "+") as [-> | _].
  { injection Hty as <-.
    rewrite Accept_at_ascii by (cbn; lia).
    change (strings.HasRune "*" (byteZ "+")) with false. cbn iota.
    unfold bind at 1.
    rewrite Accept_at_ascii by (cbn; lia).
    change (strings.HasRune "+" (byteZ "+")) with true. cbn iota.
    rewrite Emit_at by lia. reflexivity. }
  destruct (Ascii.eqb_spec c "-") as [-> | _].
  { injection Hty as <-.
    rewrite Accept_at_ascii by (cbn; lia).
    change (strings.HasRune "*" (byteZ "-")) with false. cbn iota.
    unfold bind at 1.
    rewrite Accept_at_ascii by (cbn; lia).
    change (strings.HasRune "+" (byteZ "-")) with false. cbn iota.
    unfold bind at 1.
    rewrite Accept_at_ascii by (cbn; lia).
    change (strings.HasRune "-" (byteZ "-")) with true. cbn iota.
    rewrite Emit_at by lia. reflexivity. }
  destruct (Ascii.eqb_spec c "/") as [-> | _]; [| discriminate].
  injection Hty as <-.
  rewrite Accept_at_ascii by (cbn; lia).
  change (strings.HasRune "*" (byteZ "/")) with false. cbn iota.
  unfold bind at 1.
  rewrite Accept_at_ascii by (cbn; lia).
  change (strings.HasRune "+" (byteZ "/")) with false. cbn iota.
  unfold bind at 1.
  rewrite Accept_at_ascii by (cbn; lia).
  change (strings.HasRune "-" (byteZ "/")) with false. cbn iota.
  unfold bind at 1.
  rewrite Accept_at_ascii by (cbn; lia).
  change (strings.HasRune "/" (byteZ "/")) with true. cbn iota.
  rewrite Emit_at by lia. reflexivity.
Qed.

End MathFacts.

Lemma Math_emits_one_witness :
  @lexer.Math unicode.asciiTables 9 (lexer.mkData "2/3" 1 1 1 50 [])
  = @lexer.Action unicode.asciiTables 8
      (lexer.mkData "2/3" 2 2 1 47 [lexer.mkItem lexer.MULT 1 "/"]).
Proof.
  exact (@Math_emits_one unicode.asciiTables 8 "2" "/" "3" 1 1 50 [] lexer.MULT
           eq_refl ltac:(cbn; lia)).
Defined.

Section TextFacts.
Import utf8 lexer lexaux.
Context {T : unicode.Tables}.

(** X12. Whenever the input at the cursor starts with [sprite-map], [Text]
    moves past these ten bytes, emits one variadic-command item that spans
    from the start of the lexeme (moved to the cursor first when the lexeme
    is a lone colon) to the cursor, and hands over to [Action]: the longer
    entries of the command list that start with [sprite-map], such as
    [sprite-map-name], are never matched as commands. *)
Theorem Text_sprite_map_first (k : nat) (inp : string) (st p w : Z) (la : rune)
  (its : list Item) :
  0 <= st <= p -> p <= strings.len inp ->
  prefix "sprite-map" (strings.drop (Z.to_nat p) inp) = true ->
  let st' :=
    if (substring (Z.to_nat st) (Z.to_nat (p - st)) inp =? ":")%string
    then p else st in
  Text (S k) (mkData inp st p w la its)
  = Action k (mkData inp (p + 10) (p + 10) w la
                (its ++ [mkItem CMDVAR st'
                           (substring (Z.to_nat st') (Z.to_nat (p + 10 - st')) inp)])).
Proof.
  intros Hst Hp Hpre st'.
  assert (Hlen : p + 10 <= strings.len inp).
  { apply prefix_length in Hpre. rewrite length_drop in Hpre.
    unfold strings.len. cbn in Hpre. lia. }
  cbn [Text]. unfold bind at 1. unfold Current, strings.slice. fields.
  settle (0 <=? st) true. settle (st <=? p) true.
  settle (p <=? strings.len inp) true. cbn [andb obind].
  unfold bind at 1.
  assert (Hst' : 0 <= st' <= p) by (subst st'; destruct (_ =? _)%string; lia).
  assert (Hign :
            (if (substring (Z.to_nat st) (Z.to_nat (p - st)) inp =? ":")%string
             then Ignore else ret tt) (mkData inp st p w la its)
            = Ret (tt, mkData inp st' p w la its)).
  { subst st'. destruct (_ =? _)%string; reflexivity. }
  rewrite Hign. unfold bind at 1.
  rewrite AcceptString_unfold by (unfold inBounds; fields; lia).
  fields. rewrite Hpre. unfold bind at 1. records.
  change (strings.len "sprite-map") with 10.
  rewrite Emit_at by lia. reflexivity.
Qed.

End TextFacts.

Lemma Text_sprite_map_first_witness :
  @lexer.Text unicode.asciiTables 9
    (lexer.mkData "sprite-map-name" 0 0 0 0 [])
  = @lexer.Action unicode.asciiTables 8
      (lexer.mkData "sprite-map-name" 10 10 0 0
         [lexer.mkItem lexer.CMDVAR 0 "sprite-map"]).
Proof.
  exact (@Text_sprite_map_first unicode.asciiTables 8 "sprite-map-name" 0 0 0 0 []
           ltac:(lia) ltac:(cbn; lia) eq_refl).
Defined.

Section CommentFacts.
Import utf8 lexer lexaux.

Lemma drop_drop (n m : nat) (s : string) :
  dropBytes n (strings.drop m s) = strings.drop (m + n) s.
Proof.
  unfold strings.drop. revert s.
  induction m as [| m IH]; intros s; [reflexivity |].
  destruct s as [| c t]; cbn [dropBytes Nat.add]; [now destruct n | apply IH].
Qed.

(** A valid rest of the input has a valid encoding in front, and what
    follows it is valid again. *)
Lemma validFrom_step (n : nat) (l : LexerData) :
  0 <= pos l < strings.len (input l) ->
  validFrom n (strings.drop (Z.to_nat (pos l)) (input l)) = true ->
  IsInvalid (fst (atCursor l)) (snd (atCursor l)) = false
  /\ exists n',
       validFrom n' (strings.drop (Z.to_nat (pos l + snd (atCursor l))) (input l))
       = true.
Proof.
  intros Hpos Hvalid.
  destruct (atCursor_width l Hpos) as [Hw _].
  unfold atCursor in *.
  destruct (strings.drop (Z.to_nat (pos l)) (input l)) as [| c t] eqn:Hs.
  - assert (Hlen : String.length (strings.drop (Z.to_nat (pos l)) (input l)) = O)
      by now rewrite Hs.
    rewrite length_drop in Hlen. unfold strings.len in Hpos. lia.
  - destruct n as [| n]; [discriminate |]. cbn [validFrom] in Hvalid.
    destruct (DecodeRuneInString (String c t)) as [r w]. cbn [fst snd] in *.
    unfold IsInvalid.
    destruct ((r =? RuneError) && (w =? 1)); [discriminate |].
    split; [reflexivity |]. exists n.
    rewrite <- Hs, drop_drop in Hvalid.
    replace (Z.to_nat (pos l + w)) with (Z.to_nat (pos l) + Z.to_nat w)%nat by lia.
    exact Hvalid.
Qed.

(** X21. On valid UTF-8 the loop of [Comment] over a block comment ends,
    terminated or not: one turn more than there are bytes after the cursor
    is budget enough. The cursor moves forward only and stays inside the
    input; input, start and queue are untouched. *)
Theorem blockCommentLoop_ends (fuel : nat) :
  forall (n : nat) (prev : rune) (l : LexerData),
    inBounds l ->
    validFrom n (strings.drop (Z.to_nat (pos l)) (input l)) = true ->
    strings.len (input l) - pos l < Z.of_nat fuel ->
    exists l',
      blockCommentLoop fuel prev l = Ret (tt, l') /\ sameText l l'
      /\ pos l <= pos l' <= strings.len (input l).
Proof.
  induction fuel as [| fuel IH]; intros n prev l Hb Hvalid Hfuel.
  - destruct Hb. lia.
  - cbn [blockCommentLoop]. unfold bind. rewrite (Advance_unfold l Hb).
    destruct Hb as [H0 H1]. unfold sameText.
    destruct (strings.len (input l) <=? pos l) eqn:Hend.
    + apply Z.leb_le in Hend.
      replace ((prev =? chr "*") && (EOF =? chr "/")) with false
        by (now rewrite andb_false_r).
      cbn [Z.eqb EOF]. eexists. split; [reflexivity |]. fields.
      repeat split; lia.
    + apply Z.leb_gt in Hend.
      destruct (validFrom_step n l ltac:(lia) Hvalid) as [Hinv [n' Hnext]].
      destruct (atCursor_width l ltac:(lia)) as [Hw Hfit].
      destruct (atCursor l) as [r w]. cbn [fst snd] in *. cbn zeta.
      rewrite Hinv.
      destruct ((prev =? chr "*") && (r =? chr "/")).
      { eexists. split; [reflexivity |]. fields. repeat split; lia. }
      destruct (r =? EOF).
      { eexists. split; [reflexivity |]. fields. repeat split; lia. }
      destruct (IH n' r (set_pos (pos l + w) (set_width w (set_last r l))))
        as (l' & Hrun & (Hin & Hst & Hit) & Hpos').
      * unfold inBounds. fields. lia.
      * fields. exact Hnext.
      * fields. lia.
      * exists l'. split; [exact Hrun |]. revert Hin Hst Hit Hpos'. fields.
        intros. repeat split; try assumption; lia.
Qed.

Lemma blockCommentLoop_ends_witness :
  exists l',
    blockCommentLoop 9 0 (mkData "/* open" 0 2 1 42 []) = Ret (tt, l')
    /\ 2 <= pos l' <= 7.
Proof.
  destruct (blockCommentLoop_ends 9 5 0 (mkData "/* open" 0 2 1 42 [])
              ltac:(unfold inBounds; cbn; lia) eq_refl ltac:(cbn; lia))
    as (l' & Hrun & _ & Hpos).
  exists l'. split; [exact Hrun | exact Hpos].
Defined.

(** X22. At an invalid encoding the loop of [Comment] over a block comment
    never ends: [Advance] returns the error rune without moving, which is
    neither the closing slash nor the end-of-input rune, so every budget of
    turns runs out. *)
Theorem blockCommentLoop_stuck_on_invalid (fuel : nat) :
  forall (prev : rune) (l : LexerData),
    inBounds l -> invalidAtCursor l = true ->
    blockCommentLoop fuel prev l = OutOfFuel.
Proof.
  induction fuel as [| fuel IH]; intros prev l Hb Hinv; [reflexivity |].
  cbn [blockCommentLoop]. unfold bind. rewrite (Advance_unfold l Hb).
  unfold invalidAtCursor in Hinv. apply andb_true_iff in Hinv as [Hlt Hinv].
  apply Z.ltb_lt in Hlt.
  settle (strings.len (input l) <=? pos l) false.
  destruct (atCursor l) as [r w] eqn:Hat. cbn [fst snd] in Hinv. cbn zeta.
  rewrite Hinv.
  unfold IsInvalid in Hinv. apply andb_true_iff in Hinv as [Hr Hw].
  apply Z.eqb_eq in Hr, Hw. subst r w.
  change (RuneError =? chr "/") with false. rewrite andb_false_r.
  change (RuneError =? EOF) with false. cbn iota.
  apply IH.
  - destruct Hb. unfold inBounds. fields. lia.
  - unfold invalidAtCursor, atCursor in *. fields.
    settle (pos l <? strings.len (input l)) true. rewrite Hat. reflexivity.
Qed.

Lemma blockCommentLoop_stuck_on_invalid_witness :
  blockCommentLoop 100 0 (mkData ("/*" ++ loneFF) 0 2 1 42 []) = OutOfFuel.
Proof.
  exact (blockCommentLoop_stuck_on_invalid 100 0 (mkData ("/*" ++ loneFF) 0 2 1 42 [])
           ltac:(unfold inBounds; cbn; lia) eq_refl).
Defined.

End CommentFacts.

(** * Further properties of the selector resolver *)
Section SplitJoinFacts.
Import strings.

Lemma splitFrom_nonempty (sep : string) (s : string) :
  forall skip cur, splitFrom sep skip cur s <> [].
Proof.
  induction s as [| c t IH]; intros skip cur; cbn [splitFrom]; [discriminate |].
  destruct skip; [destruct (prefix sep (String c t)); [discriminate |] |]; apply IH.
Qed.

Lemma concat_cons (sep a : string) (l : list string) :
  l <> [] -> String.concat sep (a :: l) = (a ++ sep ++ String.concat sep l)%string.
Proof. destruct l; [congruence | reflexivity]. Qed.

Lemma prefix_split (p s : string) :
  prefix p s = true -> s = (p ++ drop (String.length p) s)%string.
Proof.
  revert s. induction p as [| a p IH]; intros s H; [reflexivity |].
  destruct s as [| c t]; cbn in H; [discriminate |].
  destruct (ascii_dec a c) as [-> |]; [| discriminate].
  cbn. f_equal. apply IH, H.
Qed.

(** Joining the pieces of a split by the separator gives the string back. *)
Lemma Join_splitFrom (sep : string) (s : string) :
  sep <> EmptyString ->
  forall skip cur,
    (skip <= String.length s)%nat ->
    Join (splitFrom sep skip cur s) sep = (cur ++ drop skip s)%string.
Proof.
  unfold Join. intros Hsep.
  induction s as [| c t IH]; intros skip cur Hskip; cbn [splitFrom].
  - destruct skip; cbn in *; [now rewrite append_empty_r | lia].
  - destruct skip as [| k].
    + destruct (prefix sep (String c t)) eqn:Hpre.
      * rewrite concat_cons by apply splitFrom_nonempty.
        pose proof (prefix_length _ _ Hpre) as Hlen.
        destruct sep as [| a sep']; [congruence |].
        cbn [String.length Nat.sub] in *. rewrite Nat.sub_0_r.
        rewrite IH by lia. cbn [append].
        change (drop 0 (String c t)) with (String c t).
        rewrite (prefix_split _ _ Hpre) at 1. reflexivity.
      * rewrite IH by lia. cbn [drop dropBytes].
        unfold drop. cbn [dropBytes]. now rewrite append_assoc.
    + cbn [String.length] in Hskip. rewrite IH by lia. reflexivity.
Qed.

Lemma Join_Split (s sep : string) :
  sep <> EmptyString -> Join (Split s sep) sep = s.
Proof.
  intros Hsep. unfold Split. destruct sep as [| a sep']; [congruence |].
  rewrite Join_splitFrom by (congruence || lia). reflexivity.
Qed.

Lemma Split_nonempty (s sep : string) :
  sep <> EmptyString -> Split s sep <> [].
Proof.
  intros Hsep. unfold Split. destruct sep; [congruence |].
  apply splitFrom_nonempty.
Qed.

End SplitJoinFacts.

Section BackRefFacts.
Import strings ast.

Lemma substAmp_plain (parent s : string) :
  mentionsAmp s = false -> substAmp parent s = s.
Proof.
  unfold mentionsAmp.
  induction s as [| c t IH]; intros H; [reflexivity |].
  cbn in *. apply orb_false_iff in H as [Hc Ht].
  rewrite Hc, IH by exact Ht. reflexivity.
Qed.

Lemma flat_map_single {A B : Type} (f : A -> B -> B) (n : B) (ps : list A) :
  flat_map (fun p => map (f p) [n]) ps = map (fun p => f p n) ps.
Proof.
  induction ps as [| p ps IH]; [reflexivity |].
  cbn [flat_map]. rewrite IH. reflexivity.
Qed.

Lemma pairing_backref (delim part r : string) :
  mentionsAmp r = false ->
  pairing delim part (String "&" r) = (part ++ r)%string.
Proof.
  intros Hr. unfold pairing, mentionsAmp.
  cbn [list_ascii_of_string existsb isAmp].
  change (Ascii.eqb "&" "&") with true. cbn [orb substAmp isAmp].
  change (Ascii.eqb "&" "&") with true. cbn iota.
  now rewrite substAmp_plain.
Qed.

(** X13. A child fragment that is [&] followed by text without [&] resolves
    to the parent alternatives with that text appended to each, in the
    order of the parent; the bare [&] resolves to the parent selector
    itself, whatever the delimiter. *)
Theorem ghettoResolvedParentInject_backref (delim pval rest : string) :
  pval <> EmptyString -> mentionsAmp rest = false ->
  ghettoResolvedParentInject delim pval [String "&" rest]
  = Join (map (fun part => part ++ rest)%string (Split pval ", ")) ", "
  /\ ghettoResolvedParentInject delim pval ["&"] = pval.
Proof.
  intros Hne Hrest.
  assert (Hgen : forall r, mentionsAmp r = false ->
            ghettoResolvedParentInject delim pval [String "&" r]
            = Join (map (fun part => part ++ r)%string (Split pval ", ")) ", ").
  { intros r Hr. unfold ghettoResolvedParentInject.
    destruct pval as [| c t]; [congruence |].
    replace (len (String c t) =? 0) with false
      by (symmetry; apply Z.eqb_neq; unfold len; cbn; lia).
    cbn zeta. rewrite outer_loop. cbn [app]. f_equal.
    rewrite flat_map_single. apply map_ext. intros p.
    now apply pairing_backref. }
  split; [apply Hgen, Hrest |].
  rewrite Hgen by reflexivity.
  replace (map (fun part => part ++ "")%string (Split pval ", "))
    with (Split pval ", ").
  - apply Join_Split. discriminate.
  - clear. induction (Split pval ", ") as [| p ps IH]; [reflexivity |].
    cbn [map]. rewrite append_empty_r. f_equal. exact IH.
Qed.

Lemma ghettoResolvedParentInject_backref_witness :
  ghettoResolvedParentInject " > " ".a, .b" ["&:hover"]
  = ".a:hover, .b:hover"
  /\ ghettoResolvedParentInject " > " ".a, .b" ["&"] = ".a, .b".
Proof.
  destruct (ghettoResolvedParentInject_backref " > " ".a, .b" ":hover"
              ltac:(discriminate) eq_refl) as [H1 H2].
  split; [rewrite H1; reflexivity | exact H2].
Defined.

End BackRefFacts.

Section MergeFacts.
Import strings ast astwalk.

(** One run of the loop of [mergeLits]: the rest of a run of [k] left
    alternatives is appended, and after it the right alternative of the
    run. *)
Lemma mergeLoop_run (rights : list string) (k j : nat) (r : string) :
  nth_error rights j = Some r ->
  forall (chunk more ss : list string) (m : nat),
    (m < k)%nat -> List.length chunk = (k - m)%nat ->
    mergeLoop rights (Z.of_nat k) (Z.of_nat (j * k + m)) (chunk ++ more) ss
    = mergeLoop rights (Z.of_nat k) (Z.of_nat (S j * k)) more (ss ++ chunk ++ [r]).
Proof.
  intros Hr. induction chunk as [| l chunk IH]; intros more ss m Hm Hlen.
  - cbn in Hlen. lia.
  - cbn [app mergeLoop]. settle (Z.of_nat k =? 0) false.
    rewrite Z.rem_mod_nonneg by lia.
    destruct (Nat.eq_dec (S m) k) as [Hlast | Hmore].
    + assert (chunk = []) by (destruct chunk; [reflexivity | cbn in Hlen; lia]).
      subst chunk.
      replace (Z.of_nat (j * k + m) + 1) with (Z.of_nat (S j) * Z.of_nat k)
        by (cbn [Nat.mul]; lia).
      rewrite Z.mod_mul by lia. cbn [Z.eqb].
      replace (Z.quot (Z.of_nat (j * k + m)) (Z.of_nat k)) with (Z.of_nat j).
      2:{ rewrite Z.quot_div_nonneg by lia. apply Z.div_unique with (Z.of_nat m); lia. }
      rewrite Nat2Z.id, Hr. cbn [app].
      replace (Z.of_nat (S j) * Z.of_nat k) with (Z.of_nat (S j * k)) by lia.
      now rewrite <- app_assoc.
    + replace ((Z.of_nat (j * k + m) + 1) mod Z.of_nat k) with (Z.of_nat (S m)).
      2:{ apply Z.mod_unique with (Z.of_nat j); lia. }
      settle (Z.of_nat (S m) =? 0) false.
      replace (Z.of_nat (j * k + m) + 1) with (Z.of_nat (j * k + S m)) by lia.
      rewrite (IH more (ss ++ [l]) (S m)) by (cbn in Hlen; lia).
      now rewrite <- app_assoc.
Qed.

Lemma mergeLoop_runs (k : nat) (Hk : (1 <= k)%nat) (rrest : list string) :
  forall (seen rest ss : list string),
    List.length rest = (k * List.length rrest)%nat ->
    mergeLoop (seen ++ rrest) (Z.of_nat k) (Z.of_nat (List.length seen * k)) rest ss
    = Ret (ss ++ runs k rest rrest).
Proof.
  induction rrest as [| r rrest IH]; intros seen rest ss Hlen.
  - cbn in Hlen. rewrite Nat.mul_0_r in Hlen.
    destruct rest; [| discriminate]. cbn. now rewrite app_nil_r.
  - cbn [List.length] in Hlen.
    rewrite <- (firstn_skipn k rest) at 1.
    replace (List.length seen * k)%nat with (List.length seen * k + 0)%nat by lia.
    rewrite (mergeLoop_run (seen ++ r :: rrest) k (List.length seen) r).
    + replace (seen ++ r :: rrest) with ((seen ++ [r]) ++ rrest)
        by (now rewrite <- app_assoc).
      replace (S (List.length seen)) with (List.length (seen ++ [r]))
        by (rewrite length_app; cbn; lia).
      rewrite IH by (rewrite length_skipn; lia).
      cbn [runs]. rewrite <- !app_assoc. reflexivity.
    + rewrite nth_error_app2, Nat.sub_diag by lia. reflexivity.
    + lia.
    + rewrite length_firstn. lia.
Qed.

(** X14. When the left alternatives are [k >= 1] times as many as the right
    alternatives, [mergeLits] returns the left alternatives in their order
    with the right alternatives put in one by one, each after a run of [k]
    left alternatives; no incompatible-lengths failure is raised. *)
Theorem mergeLits_exact_ratio_runs (delim left right : string) (k : nat) :
  delim <> EmptyString -> (1 <= k)%nat ->
  List.length (Split left delim) = (k * List.length (Split right delim))%nat ->
  mergeLits delim left right
  = Ret (Join (runs k (Split left delim) (Split right delim)) delim).
Proof.
  intros Hdelim Hk Hlen. unfold mergeLits, mergeSlices.
  pose proof (Split_nonempty right delim Hdelim) as Hne.
  set (lefts := Split left delim) in *. set (rights := Split right delim) in *.
  assert (Hlr : 0 < Z.of_nat (List.length rights))
    by (destruct rights; [congruence | cbn; lia]).
  assert (Hll : Z.of_nat (List.length lefts)
                = Z.of_nat k * Z.of_nat (List.length rights))
    by (rewrite Hlen; lia).
  set (lr := Z.of_nat (List.length rights)) in *.
  set (ll := Z.of_nat (List.length lefts)) in *.
  assert (Hguard : math.Remainder_pos ll lr = false).
  { unfold math.Remainder_pos, math.Remainder.
    settle (lr =? 0) false.
    rewrite Z.abs_eq by lia.
    rewrite Hll, Z.mod_mul by lia. cbn.
    settle (0 <? lr) true.
    reflexivity. }
  rewrite Hguard.
  settle (lr =? 0) false.
  rewrite Hll, Z.quot_mul by lia.
  pose proof (mergeLoop_runs k Hk rights [] lefts [] Hlen) as Hloop.
  cbn [app List.length Nat.mul Z.of_nat] in Hloop. rewrite Hloop.
  reflexivity.
Qed.

Lemma mergeLits_exact_ratio_runs_witness :
  mergeLits ", " "a x, a y, b x, b y" "a z, b z"
  = Ret "a x, a y, a z, b x, b y, b z".
Proof.
  exact (mergeLits_exact_ratio_runs ", " "a x, a y, b x, b y" "a z, b z" 2
           ltac:(discriminate) ltac:(lia) eq_refl).
Defined.

End MergeFacts.

Section SwitchFacts.
Import token strings ast astwalk.
Context {E : Env}.

(** X15. Without a parent statement, a selector built from literals and
    binary combinators other than the comma resolves to a literal whose value
    is its source text: the literals unchanged, each operator between single
    spaces. A bare literal keeps its own position and takes the kind of its
    copy; a binary expression gives a literal of kind STRING at the position
    of the expression. [ExprCopy] is taken to return a literal for a
    literal. *)
Theorem switchExpr_unparented_plain (e : Expr) :
  (forall lit, exists copy, ExprCopy (Some lit) = Ret (Some copy)) ->
  plain e = true ->
  exists lit,
    switchExpr None e = Ret (Some lit) /\ Value lit = render e
    /\ match e with
       | EBasicLit v =>
         ValuePos lit = ValuePos v
         /\ forall copy, ExprCopy (Some v) = Ret (Some copy) -> Kind lit = Kind copy
       | _ => Kind lit = STRING /\ ValuePos lit = Pos e
       end.
Proof.
  intros Hcopy. induction e as [v | op p x IHx | op p x IHx y IHy |];
    intros Hplain; try discriminate.
  - destruct (Hcopy v) as [c Hc]. cbn [switchExpr]. rewrite Hc. cbn.
    eexists. split; [reflexivity |]. cbn [Value ValuePos Kind].
    repeat split. intros copy Heq. now injection Heq as <-.
  - cbn [plain] in Hplain.
    apply andb_true_iff in Hplain as [Hplain Hy].
    apply andb_true_iff in Hplain as [Hop Hx].
    apply negb_true_iff in Hop.
    destruct (IHx Hx) as (lx & Hsx & Hvx & _).
    destruct (IHy Hy) as (ly & Hsy & Hvy & _).
    cbn [switchExpr]. unfold joinBinaryWith. rewrite Hsx, Hsy. cbn [obind].
    assert (Hunx : isUnary x = false) by (destruct x; try reflexivity; discriminate).
    rewrite Hunx, Hop. cbn [andb valueOf obind].
    eexists. split; [reflexivity |].
    cbn [Value Kind ValuePos render strings.Join String.concat].
    rewrite Hvx, Hvy.
    repeat split. now rewrite !append_assoc.
Qed.

End SwitchFacts.

Lemma switchExpr_unparented_plain_witness :
  exists lit,
    @astwalk.switchExpr astwalk.copyEnv None
      (astwalk.EBinaryExpr token.GTR 3
         (astwalk.EBasicLit (astwalk.mkLit token.INT 0 ".a"))
         (astwalk.EBasicLit (astwalk.mkLit token.STRING 5 ".b")))
    = Ret (Some lit)
    /\ astwalk.Value lit = ".a > .b"
    /\ astwalk.Kind lit = token.STRING /\ astwalk.ValuePos lit = 3.
Proof.
  exact (@switchExpr_unparented_plain astwalk.copyEnv
           (astwalk.EBinaryExpr token.GTR 3
              (astwalk.EBasicLit (astwalk.mkLit token.INT 0 ".a"))
              (astwalk.EBasicLit (astwalk.mkLit token.STRING 5 ".b")))
           (fun lit => ex_intro _ lit eq_refl) eq_refl).
Defined.

(** * Further properties of the evaluator and of the code generator *)
Section EvalFacts.
Import token compiler compaux.
Context {E : Env}.

Lemma last_map {A B : Type} (f : A -> B) (l : list A) (d : A) :
  List.last (map f l) (f d) = f (List.last l d).
Proof.
  induction l as [| a l IH]; [reflexivity |].
  destruct l as [| b l]; [reflexivity |]. exact IH.
Qed.

(** The resolving loop on literals collects their texts. *)
Lemma resolveAll_lits (ctx : Context) (lits : list BasicLit) :
  forall sums,
    resolveAll resolveExpr ctx (map litExpr lits) sums
    = Ret (inl (sums ++ map litText lits), ctx).
Proof.
  induction lits as [| lit lits IH]; intros sums; cbn [map resolveAll].
  - now rewrite app_nil_r.
  - unfold litExpr at 1. cbn [resolveExpr]. unfold litText at 1.
    destruct (token.eqb (Kind lit) VAR); cbn [obind];
      rewrite IH, <- app_assoc; reflexivity.
Qed.

(** Literals that do not open a quoted string are joined by spaces. *)
Lemma simplifyExprs_lits (ctx : Context) (lit : BasicLit)
  (lits : list BasicLit) :
  token.eqb (Kind lit) QSTRING = false ->
  simplifyExprs ctx (map litExpr (lit :: lits))
  = Ret ((strings.Join (map litText (lit :: lits)) " ", None), ctx).
Proof.
  intros Hq. unfold simplifyExprs, simplifyWith.
  rewrite resolveAll_lits. cbn [obind app].
  cbn [map]. unfold litExpr at 1. cbn [isQString]. rewrite Hq. cbn [obind].
  change (EBasicLit (Some lit)) with (litExpr lit).
  change (litExpr lit :: map litExpr lits) with (map litExpr (lit :: lits)).
  rewrite last_map. unfold litExpr at 1. cbn [isQString obind].
  reflexivity.
Qed.

(** X16. A value list of literals whose first is not a quoted-string marker
    simplifies to their texts joined by single spaces, with a nil error and
    the context unchanged; a literal of kind VAR contributes the empty
    string, so its place shows as two spaces in a row. *)
Theorem simplifyExprs_literals (ctx : Context) (lit : BasicLit)
  (lits : list BasicLit) :
  token.eqb (Kind lit) QSTRING = false ->
  simplifyExprs ctx (map litExpr (lit :: lits))
  = Ret ((strings.Join (map litText (lit :: lits)) " ", None), ctx).
Proof.
  exact (simplifyExprs_lits ctx lit lits).
Qed.

End EvalFacts.

Section IdentFacts.
Import token compiler compaux.
Context {E : Env}.

Lemma resolveIdent_chain (names : list string) (last : Ident) :
  resolveIdent (chain names last) = resolveIdent last.
Proof.
  induction names as [| n names IH]; [reflexivity |]. cbn [chain resolveIdent].
  exact IH.
Qed.

Lemma specValues_lits (lits : list BasicLit) :
  specValues (map litExpr lits)
  = Ret (filter (fun v => 0 <? strings.len v) (map Value lits)).
Proof.
  induction lits as [| lit lits IH]; [reflexivity |].
  cbn [map]. unfold litExpr at 1. cbn [specValues filter]. rewrite IH.
  cbn [obind]. now destruct (0 <? strings.len (Value lit)).
Qed.

Lemma resolveAssign_lits (lits : list BasicLit) :
  resolveAssign (map litExpr lits) = Ret (map Some lits).
Proof.
  induction lits as [| lit lits IH]; [reflexivity |].
  cbn [map]. unfold litExpr at 1. cbn [resolveAssign resolveRhs obind].
  rewrite IH. reflexivity.
Qed.

Lemma litValues_some (lits : list BasicLit) :
  litValues (map Some lits) = Ret (map Value lits).
Proof.
  induction lits as [| lit lits IH]; [reflexivity |].
  cbn [map litValues]. rewrite IH. reflexivity.
Qed.

(** X17. An identifier resolves through any chain of identifiers bound to
    identifiers to what the last one resolves to. At the end of the chain, an
    unbound identifier gives its own name; a binding to a value
    specification of literals gives their values joined by single spaces
    with the empty values left out; a binding to an assignment of literals
    gives all their values joined by single spaces; and a binding directly
    to a literal gives the empty string. *)
Theorem resolveIdent_through_chain (names : list string) (n : string)
  (lits : list BasicLit) (lit : BasicLit) :
  resolveIdent (chain names (mkIdent n None)) = Ret n
  /\ resolveIdent (chain names (mkIdent n (Some (DValueSpec (map litExpr lits)))))
     = Ret (strings.Join
              (filter (fun v => 0 <? strings.len v) (map Value lits)) " ")
  /\ resolveIdent (chain names (mkIdent n (Some (DAssignStmt (map litExpr lits)))))
     = Ret (strings.Join (map Value lits) " ")
  /\ resolveIdent (chain names (mkIdent n (Some (DExpr (litExpr lit)))))
     = Ret EmptyString.
Proof.
  rewrite !resolveIdent_chain. cbn [resolveIdent].
  rewrite specValues_lits, resolveAssign_lits. cbn [obind].
  unfold joinLits. rewrite litValues_some. repeat split; reflexivity.
Qed.

End IdentFacts.

Section OutFacts.
Import token compiler compaux.
Context {E : Env}.

Lemma not_newline_head (ch : ascii) (t : string) (A : Type) (x y : A) :
  ch <> "010"%char ->
  match String ch t with
  | String "010" _ => x
  | _ => y
  end = y.
Proof.
  intros Hne.
  destruct ch as [[] [] [] [] [] [] [] []]; try reflexivity.
  congruence.
Qed.

Lemma out_unfold (v : string) (c : Context) :
  out v c
  = if prefix nl v then Ret (Fprintf v c)
    else if (0 <=? level c * 2) && (level c * 2 <=? wsCap)
         then Ret (write (spaces (Z.to_nat (level c * 2)) ++ v) c)
         else Panic SliceBounds.
Proof.
  unfold out, nl. destruct v as [| ch t]; [reflexivity |].
  cbn [prefix]. destruct (ascii_dec "010" ch) as [<- | Hne].
  - destruct t; reflexivity.
  - rewrite not_newline_head by congruence. reflexivity.
Qed.

(** The three ways [out] can go. *)
Lemma out_cases (v : string) (c : Context) :
  (prefix nl v = true -> out v c = Ret (Fprintf v c))
  /\ (prefix nl v = false -> 0 <= level c <= 23 ->
      out v c = Ret (write (spaces (Z.to_nat (level c * 2)) ++ v) c))
  /\ (prefix nl v = false -> level c < 0 \/ 23 < level c ->
      out v c = Panic SliceBounds).
Proof.
  rewrite out_unfold. unfold wsCap. repeat split; intros Hv; rewrite Hv.
  - reflexivity.
  - intros Hl. settle (0 <=? level c * 2) true.
    settle (level c * 2 <=? 46) true. reflexivity.
  - intros [Hl | Hl].
    + settle (0 <=? level c * 2) false. reflexivity.
    + settle (level c * 2 <=? 46) false. now rewrite andb_false_r.
Qed.



End OutFacts.


Section ErrorFacts.
Import token compiler compaux.
Context {E : Env}.



End ErrorFacts.

(** Projections of the updated context, and strings up to the bracketing
    of their concatenation. *)
Ltac ctx_fields :=
  unfold compiler.write, compiler.set_err, compiler.set_scope, compiler.set_buf,
    compiler.set_firstRule, compiler.set_level, compiler.set_activeSel;
  cbn [compiler.buf compiler.firstRule compiler.level compiler.err
       compiler.scope compiler.activeSel].

Ltac same_text :=
  unfold compiler.nl; repeat rewrite append_assoc; cbn [append];
  repeat rewrite append_assoc; reflexivity.

Section BlockFacts.
Import token compiler compaux.
Context {E : Env}.

Lemma simplifyExprs_words (ctx : Context) (v : string) (vs : list string) :
  simplifyExprs ctx (map word (v :: vs))
  = Ret ((strings.Join (v :: vs) " ", None), ctx).
Proof.
  replace (map word (v :: vs))
    with (map litExpr (mkLit STRING v :: map (mkLit STRING) vs))
    by (cbn [map]; rewrite map_map; reflexivity).
  rewrite simplifyExprs_lits by reflexivity.
  replace (map litText (mkLit STRING v :: map (mkLit STRING) vs)) with (v :: vs);
    [reflexivity |].
  cbn [map]. rewrite map_map. unfold litText. cbn. now rewrite map_id.
Qed.

Lemma prefix_nl_head (ch : ascii) (t t' : string) :
  prefix nl (String ch t) = prefix nl (String ch t').
Proof.
  unfold nl. cbn [prefix]. destruct (ascii_dec "010" ch); [| reflexivity].
  now destruct t, t'.
Qed.

(** A rule of plain words printed into a block that is already open. *)
Lemma printRuleSpec_open (c : Context) (rule : string * list string) :
  firstRule c = false -> 0 <= level c <= 23 -> snd rule <> [] ->
  exists c',
    printRuleSpec (fst rule) (map word (snd rule)) c = Ret c'
    /\ buf c' = (buf c ++ nl ++ ruleLine (indent c) rule)%string
    /\ firstRule c' = false /\ level c' = level c /\ err c' = None
    /\ activeSel c' = activeSel c.
Proof.
  intros Hfr Hl Hvs. destruct rule as [name vs]. cbn [fst snd] in *.
  destruct vs as [| v vs]; [congruence |].
  unfold printRuleSpec, blockIntro. rewrite Hfr. cbn [negb obind].
  destruct (out_cases ("  " ++ name ++ ": ")
              (set_scope (RuleAdd (scope (write nl c))) (write nl c)))
    as (_ & Hout & _).
  rewrite Hout by (reflexivity || (unfold set_scope, write, set_buf; cbn [level]; lia)).
  cbn [obind].
  rewrite simplifyExprs_words. cbn [obind].
  eexists. split; [reflexivity |]. ctx_fields.
  repeat split; try assumption. unfold ruleLine, indent. cbn [fst snd]. same_text.
Qed.

(** The first rule of a block, which opens it. *)
Lemma printRuleSpec_first (c : Context) (rule : string * list string) :
  firstRule c = true -> 0 <= level c <= 23 -> snd rule <> [] ->
  prefix nl (selText c) = false ->
  exists c',
    printRuleSpec (fst rule) (map word (snd rule)) c = Ret c'
    /\ buf c'
       = (buf c ++ gap c ++ indent c ++ selText c ++ " {" ++ nl
          ++ ruleLine (indent c) rule)%string
    /\ firstRule c' = false /\ level c' = level c /\ err c' = None
    /\ activeSel c' = activeSel c.
Proof.
  intros Hfr Hl Hvs Hsel. destruct rule as [name vs]. cbn [fst snd] in *.
  destruct vs as [| v vs]; [congruence |].
  unfold printRuleSpec, blockIntro. rewrite Hfr. cbn [negb].
  set (c1 := if 0 <? strings.len (buf (set_firstRule false c))
             then if level (set_firstRule false c) =? 0
                  then write nl (set_firstRule false c)
                  else set_firstRule false c
             else set_firstRule false c).
  assert (Hc1 : level c1 = level c /\ firstRule c1 = false
                /\ activeSel c1 = activeSel c
                /\ buf c1 = (buf c ++ gap c)%string).
  { subst c1. unfold gap. ctx_fields.
    destruct (0 <? strings.len (buf c)); [destruct (level c =? 0) |];
      ctx_fields; cbn [andb]; repeat split; now rewrite ?append_empty_r. }
  destruct Hc1 as (Hl1 & Hfr1 & Hsel1 & Hbuf1).
  assert (Htext : match activeSel c1 with
                  | Some lit => Value lit
                  | None => "MISSING"
                  end = selText c) by (unfold selText; now rewrite Hsel1).
  rewrite Htext.
  destruct (out_cases (selText c ++ " {" ++ nl) c1) as (_ & Hout1 & _).
  rewrite Hout1.
  2:{ destruct (selText c) as [| ch t]; [reflexivity |].
      cbn [append]. rewrite <- Hsel. apply prefix_nl_head. }
  2:{ lia. }
  cbn [obind].
  match goal with
  | |- context [out ?v ?ctx] =>
    destruct (out_cases v ctx) as (_ & Hout2 & _); rewrite Hout2
  end.
  2:{ reflexivity. }
  2:{ unfold set_scope, write, set_buf. cbn [level]. lia. }
  cbn [obind]. rewrite simplifyExprs_words. cbn [obind].
  eexists. split; [reflexivity |]. ctx_fields.
  rewrite Hl1, Hbuf1, Hsel1.
  repeat split; try assumption. unfold ruleLine, indent. cbn [fst snd]. same_text.
Qed.

Lemma concat_lines (line : string * list string -> string)
  (rule : string * list string) (rules : list (string * list string)) :
  strings.Join (map line (rule :: rules)) nl
  = (line rule ++ String.concat "" (map (fun r => nl ++ line r) rules))%string.
Proof.
  unfold strings.Join. revert rule.
  induction rules as [| r rules IH]; intros rule.
  - cbn. now rewrite append_empty_r.
  - cbn [map] in *. rewrite concat_cons by discriminate. rewrite IH.
    destruct rules as [| r2 rules]; cbn [map String.concat];
      rewrite ?append_empty_r; same_text.
Qed.

Lemma printRules_open (rules : list (string * list string)) :
  forall c,
    firstRule c = false -> 0 <= level c <= 23 ->
    Forall (fun rule => snd rule <> []) rules ->
    exists c',
      printRules (map wordRule rules) c = Ret c'
      /\ buf c'
         = (buf c
            ++ String.concat ""
                 (map (fun rule => nl ++ ruleLine (indent c) rule) rules))%string
      /\ firstRule c' = false /\ level c' = level c
      /\ activeSel c' = activeSel c.
Proof.
  induction rules as [| rule rules IH]; intros c Hfr Hl Hall.
  - exists c. cbn. rewrite append_empty_r. repeat split; assumption.
  - inversion Hall as [| ? ? Hvs Hrest]; subst.
    destruct (printRuleSpec_open c rule Hfr Hl Hvs)
      as (c1 & Hrun1 & Hbuf1 & Hfr1 & Hl1 & Herr1 & Hsel1).
    destruct (IH c1 Hfr1 ltac:(lia) Hrest)
      as (c' & Hrun & Hbuf & Hfr' & Hl' & Hsel').
    exists c'. cbn [map printRules]. unfold wordRule at 1.
    rewrite Hrun1. cbn [obind]. rewrite Hrun.
    repeat split; try congruence.
    rewrite Hbuf, Hbuf1. unfold indent. rewrite Hl1. cbn [map].
    destruct rules as [| r2 rules]; cbn [map String.concat];
      rewrite ?append_empty_r; same_text.
Qed.

(** X20. A block of rules whose values are plain words prints as the
    selector line with the opening brace, one line per rule (indentation,
    two spaces, name, colon, the values joined by single spaces, semicolon),
    and the closing brace after one space on the line of the last rule; at
    level 0 a blank line comes first when something was written before. A
    block without rules prints nothing at all. The block is left closed and
    the level as it was. *)
Theorem printBlock_text (c : Context) (rules : list (string * list string)) :
  firstRule c = true -> 0 <= level c <= 23 ->
  prefix nl (selText c) = false ->
  Forall (fun rule => snd rule <> []) rules ->
  exists c',
    printBlock (map wordRule rules) c = Ret c'
    /\ buf c'
       = (buf c
          ++ match rules with
             | [] => ""
             | _ => gap c ++ indent c ++ selText c ++ " {" ++ nl
                    ++ strings.Join (map (ruleLine (indent c)) rules) nl
                    ++ " }" ++ nl
             end)%string
    /\ firstRule c' = true /\ level c' = level c.
Proof.
  intros Hfr Hl Hsel Hall. unfold printBlock.
  destruct rules as [| rule rules].
  - exists c. cbn [map printRules obind]. unfold blockOutro. rewrite Hfr.
    rewrite append_empty_r. repeat split; assumption.
  - inversion Hall as [| ? ? Hvs Hrest]; subst.
    destruct (printRuleSpec_first c rule Hfr Hl Hvs Hsel)
      as (c1 & Hrun1 & Hbuf1 & Hfr1 & Hl1 & Herr1 & Hsel1).
    destruct (printRules_open rules c1 Hfr1 ltac:(lia) Hrest)
      as (c2 & Hrun & Hbuf & Hfr2 & Hl2 & Hsel2).
    cbn [map printRules]. unfold wordRule at 1.
    rewrite Hrun1. cbn [obind]. rewrite Hrun. cbn [obind].
    eexists. split; [reflexivity |].
    unfold blockOutro. rewrite Hfr2. ctx_fields.
    repeat split; [| congruence].
    rewrite Hbuf, Hbuf1.
    change (ruleLine (indent c) rule :: map (ruleLine (indent c)) rules)
      with (map (ruleLine (indent c)) (rule :: rules)).
    rewrite concat_lines. unfold indent. rewrite Hl1.
    same_text.
Qed.

End BlockFacts.

Section EvalWitnesses.
Import token compiler compaux.

Lemma simplifyExprs_literals_witness :
  @simplifyExprs ruleEnv Init
    (map litExpr [mkLit STRING "1px"; mkLit VAR "$w"; mkLit STRING "solid"])
  = Ret (("1px  solid", None), Init).
Proof.
  exact (@simplifyExprs_literals ruleEnv Init (mkLit STRING "1px")
           [mkLit VAR "$w"; mkLit STRING "solid"] eq_refl).
Defined.

End EvalWitnesses.

Section ErrorWitnesses.
Import token compiler compaux.


End ErrorWitnesses.

Section BlockWitnesses.
Import token compiler compaux.

Lemma printBlock_text_witness :
  exists c',
    @printBlock ruleEnv
      (map wordRule [("color", ["red"]); ("border", ["1px"; "solid"])])
      (mkContext "" None (Some (mkLit STRING ".a")) true 0 [O])
    = Ret c'
    /\ buf c'
       = (".a {" ++ nl ++ "  color: red;" ++ nl ++ "  border: 1px solid; }" ++ nl)%string.
Proof.
  destruct (@printBlock_text ruleEnv
              (mkContext "" None (Some (mkLit STRING ".a")) true 0 [O])
              [("color", ["red"]); ("border", ["1px"; "solid"])]
              eq_refl ltac:(cbn; lia) eq_refl
              ltac:(repeat constructor; discriminate))
    as (c' & Hrun & Hbuf & _).
  exists c'. split; [exact Hrun | exact Hbuf].
Defined.

End BlockWitnesses.
